(** * Conversation store and chat-stream ingestion of the Nexus client

    A shallow embedding of
    - [context/ChatContext.tsx]  (the conversation store, [generateMessageId]),
    - [context/AuthContext.tsx]  ([login], [signup], the session),
    - [app/index.tsx]            ([handleSubmit] of the sign-in form),
    - [app/chat/[id].tsx]        ([handleSend], the stream ingestion loop),
    - [app/image.tsx]            ([handleGenerate]),
    together with the properties the specification states about them and
    further properties of the same code.

    JavaScript strings are modelled by [string]; platform services the
    repository does not define ([JSON.parse], [JSON.stringify], [Date.now],
    [Math.random], number formatting) are the fields of the [Platform] class. *)

From Stdlib Require Import Ascii.
From stdpp Require Import gmap strings pretty list.

Set Warnings "-register-all".

(** ** JavaScript string primitives used by the sources *)

Module JsString.

Definition newline : ascii := Ascii.ascii_of_nat 10.

(** [s.startsWith(p)] *)
Fixpoint startsWith (p s : string) : bool :=
  match p, s with
  | EmptyString, _ => true
  | String a p', String b s' => if decide (a = b) then startsWith p' s' else false
  | String _ _, EmptyString => false
  end.

(** [s.slice(n)] for [0 <= n] *)
Fixpoint slice_from (n : nat) (s : string) : string :=
  match n, s with
  | O, _ => s
  | S n', String _ s' => slice_from n' s'
  | S _, EmptyString => EmptyString
  end.

(** [s.slice(0, n)], which is also [s.substr(0, n)] *)
Fixpoint slice_to (n : nat) (s : string) : string :=
  match n, s with
  | S n', String a s' => String a (slice_to n' s')
  | _, _ => EmptyString
  end.

(** [s.split('\n')]: never empty; a string without newline is its own
    single segment *)
Fixpoint split_newline (s : string) : list string :=
  match s with
  | EmptyString => [EmptyString]
  | String c s' =>
      if decide (c = newline) then EmptyString :: split_newline s'
      else match split_newline s' with
           | seg :: segs => String c seg :: segs
           | [] => [String c EmptyString]
           end
  end.

(** Code units that [String.prototype.trim] strips, within U+0000..U+00FF:
    TAB, LF, VT, FF, CR, SPACE and NO-BREAK SPACE. *)
Definition is_white (c : ascii) : bool :=
  let n := Ascii.nat_of_ascii c in
  bool_decide (n = 9 ∨ n = 10 ∨ n = 11 ∨ n = 12 ∨ n = 13 ∨ n = 32 ∨ n = 160)%nat.

Fixpoint trim_start (s : string) : string :=
  match s with
  | String c s' => if is_white c then trim_start s' else s
  | EmptyString => EmptyString
  end.

(** right trim: a white character is dropped when everything after it
    has been dropped *)
Fixpoint trim_end (s : string) : string :=
  match s with
  | EmptyString => EmptyString
  | String c s' =>
      match trim_end s' with
      | EmptyString => if is_white c then EmptyString else String c EmptyString
      | t => String c t
      end
  end.

(** [s.trim()] *)
Definition trim (s : string) : string := trim_end (trim_start s).

(** [toLowerCase] on one code unit of U+0000..U+00FF: A-Z, and the
    Latin-1 capitals U+00C0..U+00DE except the multiplication sign U+00D7 *)
Definition lower_char (c : ascii) : ascii :=
  let n := Ascii.nat_of_ascii c in
  if bool_decide ((65 ≤ n ∧ n ≤ 90) ∨ (192 ≤ n ∧ n ≤ 222 ∧ n ≠ 215))%nat
  then Ascii.ascii_of_nat (n + 32) else c.

(** [s.toLowerCase()] *)
Fixpoint toLowerCase (s : string) : string :=
  match s with
  | EmptyString => EmptyString
  | String c s' => String (lower_char c) (toLowerCase s')
  end.

(** [parts.join(sep)] *)
Fixpoint join (sep : string) (parts : list string) : string :=
  match parts with
  | [] => EmptyString
  | [p] => p
  | p :: ps => p +:+ sep +:+ join sep ps
  end.

(** [s.includes('\n')] *)
Fixpoint includes_newline (s : string) : bool :=
  match s with
  | EmptyString => false
  | String c s' => if decide (c = newline) then true else includes_newline s'
  end.

(** concatenation of a list of strings, in order *)
Definition concat (parts : list string) : string :=
  foldr String.append EmptyString parts.

End JsString.

(** ** JavaScript values as [JSON.parse] produces them *)

(** [Number] is the platform's number type; the embedding never inspects a
    number beyond its truthiness and its string conversion. *)
Inductive JsValue (Number : Type) : Type :=
  | JNull
  | JBool (b : bool)
  | JNum (n : Number)
  | JStr (s : string)
  | JArr (items : list (JsValue Number))
  | JObj (fields : list (string * JsValue Number)).

Arguments JNull {Number}.
Arguments JBool {Number} b.
Arguments JNum {Number} n.
Arguments JStr {Number} s.
Arguments JArr {Number} items.
Arguments JObj {Number} fields.

(** Exceptions that the modelled code can raise or observe. *)
Inductive Exn :=
  | SyntaxError                 (* JSON.parse on malformed text *)
  | TypeError                   (* property read on null *)
  | Error (message : string)    (* [throw new Error(message)] *)
  | Rejected.                   (* a rejected platform promise: fetch, read, storage *)

(** The services of the JavaScript platform that the sources call. A stored
    or received number is opaque; [Date_now k] is what the [k]-th call of
    [Date.now()] of the process returns and [Math_random k] the base-36
    fraction digits of what the [k]-th call of [Math.random()] returns (the
    characters of [Math.random().toString(36)] after the leading "0."). *)
Class Platform := {
  Number : Type;
  Number_truthy : Number → bool;
  Number_toString : Number → string;
  JSON_parse : string → option (JsValue Number);
  JSON_stringify : JsValue Number → string;
  Date_now : nat → Number;
  Math_random : nat → list N;
}.

Section Values.
Context `{Platform}.

Fixpoint assoc (name : string) (fields : list (string * JsValue Number))
  : option (JsValue Number) :=
  match fields with
  | [] => None
  | (k, v) :: rest => if decide (k = name) then Some v else assoc name rest
  end.

(** [v.name] for a property name that no built-in prototype defines (the
    sources read [content], [error], and the record fields of their own
    data). [inl TypeError] is the exception of a read on [null];
    [inr None] is [undefined]. *)
Definition get_prop (v : JsValue Number) (name : string)
  : Exn + option (JsValue Number) :=
  match v with
  | JNull => inl TypeError
  | JObj fields => inr (assoc name fields)
  | _ => inr None
  end.

(** truthiness of a value read from a property ([None] is [undefined]) *)
Definition truthy (o : option (JsValue Number)) : bool :=
  match o with
  | None => false
  | Some JNull => false
  | Some (JBool b) => b
  | Some (JNum n) => Number_truthy n
  | Some (JStr s) => negb (bool_decide (s = ""))
  | Some (JArr _) => true
  | Some (JObj _) => true
  end.

(** [String(v)], the conversion that [+=] on a string and [new Error(v)]
    apply. An array prints its elements joined by commas, [null] elements
    as the empty string. *)
Fixpoint to_string (v : JsValue Number) : string :=
  match v with
  | JNull => "null"
  | JBool true => "true"
  | JBool false => "false"
  | JNum n => Number_toString n
  | JStr s => s
  | JArr items =>
      JsString.join ","
        (map (λ x, match x with JNull => "" | _ => to_string x end) items)
  | JObj _ => "[object Object]"
  end.

End Values.

(** ** Message identifiers ([ChatContext.tsx], [generateMessageId]) *)

(** What the process has consumed of its environment so far, and the
    module-level variable [msgCounter]. *)
Record World := {
  msgCounter : Z;
  clock_reads : nat;     (* calls of Date.now() so far *)
  random_reads : nat;    (* calls of Math.random() so far *)
}.

(** [x++] on a JavaScript number holding a non-negative integer: exact up to
    2^53, where the next integer is not representable and the sum rounds back
    to 2^53. *)
Definition number_succ (x : Z) : Z :=
  if decide (x < 2 ^ 53)%Z then (x + 1)%Z else x.

Definition base36_digits : list ascii :=
  String.list_ascii_of_string "0123456789abcdefghijklmnopqrstuvwxyz".

Definition base36_char (d : N) : ascii :=
  nth (N.to_nat d) base36_digits "z"%char.

Section Ids.
Context `{Platform}.

(** [Date.now()] *)
Definition date_now (w : World) : Number * World :=
  (Date_now (clock_reads w),
   {| msgCounter := msgCounter w;
      clock_reads := S (clock_reads w);
      random_reads := random_reads w |}).

(** [Math.random().toString(36).substr(2, 9)]: at most nine fraction
    digits in base 36 *)
Definition random_suffix (w : World) : string * World :=
  (String.string_of_list_ascii
     (map base36_char (take 9 (Math_random (random_reads w)))),
   {| msgCounter := msgCounter w;
      clock_reads := clock_reads w;
      random_reads := S (random_reads w) |}).

(** the template literal [`msg-${t}-${k}-${r}`] *)
Definition message_id (t : string) (k : Z) (r : string) : string :=
  "msg-" +:+ t +:+ "-" +:+ pretty k +:+ "-" +:+ r.

Definition generateMessageId (w : World) : string * World :=
  let w1 := {| msgCounter := number_succ (msgCounter w);
               clock_reads := clock_reads w;
               random_reads := random_reads w |} in
  let '(now, w2) := date_now w1 in
  let '(r, w3) := random_suffix w2 in
  (message_id (Number_toString now) (msgCounter w1) r, w3).

(** [Date.now().toString() + Math.random().toString(36).substr(2, 9)],
    the identifier of a new conversation or user *)
Definition timestamp_id (w : World) : string * World :=
  let '(now, w1) := date_now w in
  let '(r, w2) := random_suffix w1 in
  (Number_toString now +:+ r, w2).

(** The identifiers of successive calls in one process, starting with
    [msgCounter = c]. Other code may read the clock and the random source
    between two calls, so each call comes with the positions [(i, j)] at
    which it finds them; only [generateMessageId] assigns [msgCounter]. *)
Fixpoint generated_ids (calls : list (nat * nat)) (c : Z) : list string :=
  match calls with
  | [] => []
  | (i, j) :: rest =>
      let '(id, w) :=
        generateMessageId
          {| msgCounter := c; clock_reads := i; random_reads := j |} in
      id :: generated_ids rest (msgCounter w)
  end.

End Ids.

Fixpoint has_dash (s : string) : bool :=
  match s with
  | EmptyString => false
  | String c s' => if decide (c = "-"%char) then true else has_dash s'
  end.

(** ** The conversation store ([context/ChatContext.tsx]) *)

Inductive Role := User | Assistant.

Global Instance Role_eq_dec : EqDecision Role.
Proof. solve_decision. Defined.

Section ChatContext.
Context `{Platform}.

Record Message := {
  msg_id : string;
  role : Role;
  content : string;
  timestamp : Number;
  imageBase64 : option string;       (* [None]: the property is absent *)
}.

Record Conversation := {
  conv_id : string;
  title : string;
  messages : list Message;
  createdAt : Number;
  updatedAt : Number;
}.

(** [{ ...m, content }] *)
Definition with_content (m : Message) (c : string) : Message :=
  {| msg_id := msg_id m; role := role m; content := c;
     timestamp := timestamp m; imageBase64 := imageBase64 m |}.

(** [{ ...c, messages: msgs, updatedAt: now }] *)
Definition with_messages (c : Conversation) (msgs : list Message)
    (now : Number) : Conversation :=
  {| conv_id := conv_id c; title := title c; messages := msgs;
     createdAt := createdAt c; updatedAt := now |}.

(** [{ ...c, title }] *)
Definition with_title (c : Conversation) (t : string) : Conversation :=
  {| conv_id := conv_id c; title := t; messages := messages c;
     createdAt := createdAt c; updatedAt := updatedAt c |}.

(** [prev.map(callback)] for a callback that may read the clock *)
Fixpoint map_world {A B : Type} (f : A → World → B * World) (l : list A)
    (w : World) : list B * World :=
  match l with
  | [] => ([], w)
  | a :: rest =>
      let '(b, w1) := f a w in
      let '(bs, w2) := map_world f rest w1 in
      (b :: bs, w2)
  end.

(** *** The updater functions passed to [setConversations] *)

(** [prev => [newConv, ...prev]] *)
Definition createConversation_updater (newConv : Conversation)
    (prev : list Conversation) : list Conversation :=
  newConv :: prev.

(** [prev => prev.filter(c => c.id !== id)] *)
Definition deleteConversation_updater (id : string)
    (prev : list Conversation) : list Conversation :=
  filter (λ c, conv_id c ≠ id) prev.

(** the callback and the updater of [addMessage] *)
Definition addMessage_callback (conversationId : string) (message : Message)
    (c : Conversation) (w : World) : Conversation * World :=
  if decide (conv_id c = conversationId) then
    let '(now, w1) := date_now w in
    (with_messages c (messages c ++ [message]) now, w1)
  else (c, w).

Definition addMessage_updater (conversationId : string) (message : Message)
    (prev : list Conversation) (w : World) : list Conversation * World :=
  map_world (addMessage_callback conversationId message) prev w.

(** [msgs[msgs.length - 1] = { ...msgs[msgs.length - 1], content }] on a
    copy of a non-empty list *)
Definition replace_last_content (msgs : list Message) (c : string)
    : list Message :=
  match msgs !! (length msgs - 1) with
  | Some m => <[length msgs - 1 := with_content m c]> msgs
  | None => msgs
  end.

(** the callback and the updater of [updateLastMessage] *)
Definition updateLastMessage_callback (conversationId : string)
    (content : string) (c : Conversation) (w : World)
    : Conversation * World :=
  if decide (conv_id c = conversationId ∧ (0 < length (messages c))%nat)
  then
    let msgs := replace_last_content (messages c) content in
    let '(now, w1) := date_now w in
    (with_messages c msgs now, w1)
  else (c, w).

Definition updateLastMessage_updater (conversationId : string)
    (content : string) (prev : list Conversation) (w : World)
    : list Conversation * World :=
  map_world (updateLastMessage_callback conversationId content) prev w.

(** the updater of [updateConversationTitle] *)
Definition updateConversationTitle_updater (conversationId : string)
    (t : string) (prev : list Conversation) : list Conversation :=
  map (λ c, if decide (conv_id c = conversationId) then with_title c t else c)
    prev.

(** *** Serialised form *)

Definition role_to_js (r : Role) : JsValue Number :=
  match r with User => JStr "user" | Assistant => JStr "assistant" end.

Definition message_to_js (m : Message) : JsValue Number :=
  JObj ([("id", JStr (msg_id m)); ("role", role_to_js (role m));
         ("content", JStr (content m)); ("timestamp", JNum (timestamp m))]
        ++ match imageBase64 m with
           | Some b => [("imageBase64", JStr b)]
           | None => []
           end).

Definition conversation_to_js (c : Conversation) : JsValue Number :=
  JObj [("id", JStr (conv_id c)); ("title", JStr (title c));
        ("messages", JArr (map message_to_js (messages c)));
        ("createdAt", JNum (createdAt c)); ("updatedAt", JNum (updatedAt c))].

(** the in-memory list as the value [JSON.stringify] is applied to *)
Definition conversations_to_js (cs : list Conversation) : JsValue Number :=
  JArr (map conversation_to_js cs).

Definition js_string (o : option (JsValue Number)) : option string :=
  match o with Some (JStr s) => Some s | _ => None end.

Definition js_number (o : option (JsValue Number)) : option Number :=
  match o with Some (JNum n) => Some n | _ => None end.

Definition js_role (o : option (JsValue Number)) : option Role :=
  match o with
  | Some (JStr s) =>
      if decide (s = "user") then Some User
      else if decide (s = "assistant") then Some Assistant else None
  | _ => None
  end.

(** The typed reading of a parsed value, which the source takes on trust
    ([parsed] has type [any]): [None] when the value is not a [Message]. *)
Definition js_to_message (v : JsValue Number) : option Message :=
  match v with
  | JObj fields =>
      i ← js_string (assoc "id" fields);
      r ← js_role (assoc "role" fields);
      c ← js_string (assoc "content" fields);
      t ← js_number (assoc "timestamp" fields);
      img ← match assoc "imageBase64" fields with
             | None => Some None
             | Some (JStr b) => Some (Some b)
             | Some _ => None
             end;
      Some {| msg_id := i; role := r; content := c; timestamp := t;
              imageBase64 := img |}
  | _ => None
  end.

Definition js_to_conversation (v : JsValue Number) : option Conversation :=
  match v with
  | JObj fields =>
      i ← js_string (assoc "id" fields);
      t ← js_string (assoc "title" fields);
      ms ← match assoc "messages" fields with
            | Some (JArr items) => mapM js_to_message items
            | _ => None
            end;
      ca ← js_number (assoc "createdAt" fields);
      ua ← js_number (assoc "updatedAt" fields);
      Some {| conv_id := i; title := t; messages := ms; createdAt := ca;
              updatedAt := ua |}
  | _ => None
  end.

Definition js_to_conversations (v : JsValue Number)
    : option (list Conversation) :=
  match v with
  | JArr items => mapM js_to_conversation items
  | _ => None
  end.

(** *** The provider's state *)

(** [conversations] is the React state, [conversationsRef] the ref that
    mirrors it, [saveTimer] tells whether a timeout set by [scheduleSave]
    is still to fire, [storageKey] is [storageKeyRef.current],
    [pendingLoads] lists the keys of the [loadConversations] calls whose
    [getItem] has not resolved yet, and [storage] is the content of
    AsyncStorage. *)
Record ChatState := {
  conversations : list Conversation;
  conversationsRef : list Conversation;
  isLoading : bool;
  saveTimer : bool;
  storageKey : option string;
  pendingLoads : list string;
  storage : gmap string string;
  world : World;
}.

Definition setConversations (cs : list Conversation) (st : ChatState) :=
  {| conversations := cs; conversationsRef := conversationsRef st;
     isLoading := isLoading st; saveTimer := saveTimer st;
     storageKey := storageKey st; pendingLoads := pendingLoads st;
     storage := storage st; world := world st |}.

Definition assignRef (cs : list Conversation) (st : ChatState) :=
  {| conversations := conversations st; conversationsRef := cs;
     isLoading := isLoading st; saveTimer := saveTimer st;
     storageKey := storageKey st; pendingLoads := pendingLoads st;
     storage := storage st; world := world st |}.

Definition setIsLoading (b : bool) (st : ChatState) :=
  {| conversations := conversations st;
     conversationsRef := conversationsRef st;
     isLoading := b; saveTimer := saveTimer st;
     storageKey := storageKey st; pendingLoads := pendingLoads st;
     storage := storage st; world := world st |}.

Definition setTimer (b : bool) (st : ChatState) :=
  {| conversations := conversations st;
     conversationsRef := conversationsRef st;
     isLoading := isLoading st; saveTimer := b;
     storageKey := storageKey st; pendingLoads := pendingLoads st;
     storage := storage st; world := world st |}.

Definition setStorageKey (k : option string) (st : ChatState) :=
  {| conversations := conversations st;
     conversationsRef := conversationsRef st;
     isLoading := isLoading st; saveTimer := saveTimer st;
     storageKey := k; pendingLoads := pendingLoads st;
     storage := storage st; world := world st |}.

Definition setPendingLoads (l : list string) (st : ChatState) :=
  {| conversations := conversations st;
     conversationsRef := conversationsRef st;
     isLoading := isLoading st; saveTimer := saveTimer st;
     storageKey := storageKey st; pendingLoads := l;
     storage := storage st; world := world st |}.

Definition setStorage (m : gmap string string) (st : ChatState) :=
  {| conversations := conversations st;
     conversationsRef := conversationsRef st;
     isLoading := isLoading st; saveTimer := saveTimer st;
     storageKey := storageKey st; pendingLoads := pendingLoads st;
     storage := m; world := world st |}.

Definition setWorld (w : World) (st : ChatState) :=
  {| conversations := conversations st;
     conversationsRef := conversationsRef st;
     isLoading := isLoading st; saveTimer := saveTimer st;
     storageKey := storageKey st; pendingLoads := pendingLoads st;
     storage := storage st; world := w |}.

(** [setConversations(prev => { ...; conversationsRef.current = updated;
    return updated })] *)
Definition commit (updated : list Conversation) (st : ChatState) : ChatState :=
  setConversations updated (assignRef updated st).

(** the effect [conversationsRef.current = conversations] that runs after
    a render with a new [conversations] *)
Definition sync_ref (st : ChatState) : ChatState :=
  assignRef (conversations st) st.

(** [if (saveTimerRef.current) clearTimeout(saveTimerRef.current)] *)
Definition clearSaveTimer (st : ChatState) : ChatState := setTimer false st.

(** [scheduleSave]: the pending timeout, if any, is cleared and a new one
    is set *)
Definition scheduleSave (st : ChatState) : ChatState :=
  setTimer true (clearSaveTimer st).

(** [await AsyncStorage.setItem(key, JSON.stringify(conversationsRef.current))]
    inside [try]/[catch]: a write that the store rejects ([write_ok] false)
    is logged and leaves the store as it was *)
Definition save_to (key : string) (write_ok : bool) (st : ChatState)
    : ChatState :=
  if write_ok then
    setStorage
      (<[key := JSON_stringify (conversations_to_js (conversationsRef st))]>
         (storage st)) st
  else st.

(** the callback of the timeout set by [scheduleSave] *)
Definition saveTimer_fires (write_ok : bool) (st : ChatState) : ChatState :=
  if saveTimer st then
    let st := setTimer false st in
    match storageKey st with
    | None => st
    | Some key => save_to key write_ok st
    end
  else st.

Definition persistNow (write_ok : bool) (st : ChatState) : ChatState :=
  match storageKey st with
  | None => st
  | Some key => save_to key write_ok (clearSaveTimer st)
  end.

(** [title || 'New Chat'] *)
Definition title_or_default (t : option string) : string :=
  match t with
  | Some t => if decide (t = "") then "New Chat" else t
  | None => "New Chat"
  end.

Definition createConversation (t : option string) (st : ChatState)
    : string * ChatState :=
  let '(id, w2) := timestamp_id (world st) in
  let '(created, w3) := date_now w2 in
  let '(updated, w4) := date_now w3 in
  let newConv :=
    {| conv_id := id; title := title_or_default t; messages := [];
       createdAt := created; updatedAt := updated |} in
  let st := setWorld w4 st in
  let st := commit (createConversation_updater newConv (conversations st)) st in
  (id, scheduleSave st).

Definition deleteConversation (id : string) (st : ChatState) : ChatState :=
  scheduleSave (commit (deleteConversation_updater id (conversations st)) st).

(** [conversationsRef.current.find(c => c.id === id)] *)
Definition getConversation (id : string) (st : ChatState)
    : option Conversation :=
  List.find (λ c, bool_decide (conv_id c = id)) (conversationsRef st).

Definition addMessage (conversationId : string) (message : Message)
    (st : ChatState) : ChatState :=
  let '(updated, w) :=
    addMessage_updater conversationId message (conversations st) (world st) in
  scheduleSave (commit updated (setWorld w st)).

Definition updateLastMessage (conversationId : string) (c : string)
    (st : ChatState) : ChatState :=
  let '(updated, w) :=
    updateLastMessage_updater conversationId c (conversations st) (world st) in
  commit updated (setWorld w st).

Definition updateConversationTitle (conversationId : string) (t : string)
    (st : ChatState) : ChatState :=
  scheduleSave
    (commit (updateConversationTitle_updater conversationId t
               (conversations st)) st).

(** What [loadConversations] assigns, given what [getItem] resolved to
    ([inl _]: it rejected). The outer [None] is a stored text that parses
    to something other than a list of conversations, which the source
    would put into its state unchecked; the typed model stops there. *)
Definition loaded_conversations (stored : Exn + option string)
    : option (list Conversation) :=
  match stored with
  | inr (Some text) =>
      if decide (text = "") then Some []
      else match JSON_parse text with
           | Some parsed => js_to_conversations parsed
           | None => Some []
           end
  | inr None => Some []
  | inl _ => Some []
  end.

(** the body of the effect on [storageKey], after the cleanup of the
    previous run has cleared the timer *)
Definition storageKey_changes (k : option string) (st : ChatState)
    : ChatState :=
  if decide (k = storageKey st) then st
  else
    let st := clearSaveTimer (setStorageKey k st) in
    match k with
    | Some key =>
        setPendingLoads (pendingLoads st ++ [key]) (setIsLoading true st)
    | None => setIsLoading false (sync_ref (setConversations [] st))
    end.

(** the continuation of [loadConversations] when the [getItem] of the
    [i]-th pending load resolves ([read_ok]) or rejects *)
Definition load_resolves (i : nat) (read_ok : bool) (st : ChatState)
    : option ChatState :=
  match pendingLoads st !! i with
  | None => Some st
  | Some key =>
      let stored :=
        if read_ok then inr (storage st !! key) else inl Rejected in
      cs ← loaded_conversations stored;
      Some (setIsLoading false
              (commit cs (setPendingLoads (delete i (pendingLoads st)) st)))
  end.

(** the functions the provider exports *)
Inductive Call :=
  | CreateConversation (t : option string)
  | DeleteConversation (id : string)
  | AddMessage (conversationId : string) (message : Message)
  | UpdateLastMessage (conversationId : string) (c : string)
  | UpdateConversationTitle (conversationId : string) (t : string)
  | PersistNow (write_ok : bool).

Definition call (c : Call) (st : ChatState) : ChatState :=
  match c with
  | CreateConversation t => (createConversation t st).2
  | DeleteConversation id => deleteConversation id st
  | AddMessage cid m => addMessage cid m st
  | UpdateLastMessage cid c => updateLastMessage cid c st
  | UpdateConversationTitle cid t => updateConversationTitle cid t st
  | PersistNow ok => persistNow ok st
  end.

Definition calls (cs : list Call) (st : ChatState) : ChatState :=
  foldl (λ st c, call c st) st cs.

(** everything that can happen to the provider *)
Inductive Event :=
  | Api (c : Call)
  | TimerFires (write_ok : bool)
  | StorageKeyChanges (k : option string)
  | LoadResolves (i : nat) (read_ok : bool).

Definition step (e : Event) (st : ChatState) : option ChatState :=
  match e with
  | Api c => Some (call c st)
  | TimerFires ok => Some (saveTimer_fires ok st)
  | StorageKeyChanges k => Some (storageKey_changes k st)
  | LoadResolves i ok => load_resolves i ok st
  end.

Fixpoint run (es : list Event) (st : ChatState) : option ChatState :=
  match es with
  | [] => Some st
  | e :: rest => st' ← step e st; run rest st'
  end.

(** the storage key of a user, [`nexus_chats_${user.id}`] *)
Definition chats_key (user_id : string) : string := "nexus_chats_" +:+ user_id.

(** the provider once mounted without a user, over a given store *)
Definition mounted (m : gmap string string) (w : World) : ChatState :=
  {| conversations := []; conversationsRef := []; isLoading := false;
     saveTimer := false; storageKey := None; pendingLoads := [];
     storage := m; world := w |}.

(** the calls that end in [scheduleSave()] *)
Definition schedules_save (c : Call) : bool :=
  match c with
  | CreateConversation _ | DeleteConversation _ | AddMessage _ _
  | UpdateConversationTitle _ _ => true
  | UpdateLastMessage _ _ | PersistNow _ => false
  end.

(** the calls [createConversation], [deleteConversation], [addMessage] *)
Definition is_edit (c : Call) : Prop :=
  match c with
  | CreateConversation _ | DeleteConversation _ | AddMessage _ _ => True
  | _ => False
  end.

(** *** The effect of an edit, in the specification's words

    [create]: a new conversation with an empty message list is put in
    front; [delete]: the conversations with that id are gone and the
    others stay in order; [appendMessage]: the message is added at the end
    of the conversations with that id, whose other fields except
    [updatedAt] stay, and the other conversations stay as they are. *)
Inductive reflects_call
    : Call → list Conversation → list Conversation → Prop :=
  | reflects_create t new prev :
      messages new = [] → title new = title_or_default t →
      reflects_call (CreateConversation t) prev (new :: prev)
  | reflects_delete id prev :
      reflects_call (DeleteConversation id) prev
        (filter (λ c, conv_id c ≠ id) prev)
  | reflects_append cid m prev next :
      Forall2 (λ c c',
                 if decide (conv_id c = cid) then
                   messages c' = messages c ++ [m] ∧ conv_id c' = conv_id c ∧
                   title c' = title c ∧ createdAt c' = createdAt c
                 else c' = c) prev next →
      reflects_call (AddMessage cid m) prev next.

(** a sequence of edits, each applied to what the previous one left *)
Inductive reflects
    : list Call → list Conversation → list Conversation → Prop :=
  | reflects_nil cs : reflects [] cs cs
  | reflects_cons c rest cs0 cs1 cs2 :
      reflects_call c cs0 cs1 → reflects rest cs1 cs2 →
      reflects (c :: rest) cs0 cs2.

End ChatContext.

(** ** Accounts ([context/AuthContext.tsx]) *)

Module Auth.
Section AuthContext.
Context `{Platform}.

Definition USERS_KEY : string := "nexus_users".
Definition CURRENT_USER_KEY : string := "nexus_current_user".

Record User := { user_id : string; username : string }.

(** a value of the users directory, [{ password, id }] *)
Record UserData := { password : string; id : string }.

Record Result := { success : bool; error : option string }.

Record AuthState := {
  user : option User;
  isLoading : bool;
  storage : gmap string string;
  world : World;
}.

Definition setUser (u : option User) (st : AuthState) : AuthState :=
  {| user := u; isLoading := isLoading st; storage := storage st;
     world := world st |}.

Definition setWorld (w : World) (st : AuthState) : AuthState :=
  {| user := user st; isLoading := isLoading st; storage := storage st;
     world := w |}.

(** [await AsyncStorage.setItem(key, text)], which rejects when the store
    refuses the write *)
Definition setItem (key text : string) (write_ok : bool) (st : AuthState)
    : Exn + AuthState :=
  if write_ok then
    inr {| user := user st; isLoading := isLoading st;
           storage := <[key := text]> (storage st); world := world st |}
  else inl Rejected.

Definition user_to_js (u : User) : JsValue Number :=
  JObj [("id", JStr (user_id u)); ("username", JStr (username u))].

Definition userdata_to_js (d : UserData) : JsValue Number :=
  JObj [("password", JStr (password d)); ("id", JStr (id d))].

(** the users directory as the value [JSON.stringify] is applied to *)
Definition users_to_js (users : gmap string UserData) : JsValue Number :=
  JObj (map (λ '(name, d), (name, userdata_to_js d)) (map_to_list users)).

Definition js_to_userdata (v : JsValue Number) : option UserData :=
  match v with
  | JObj fields =>
      p ← js_string (assoc "password" fields);
      i ← js_string (assoc "id" fields);
      Some {| password := p; id := i |}
  | _ => None
  end.

(** The typed reading of the parsed directory, a
    [Record<string, { password, id }>] on trust: [None] when the value is
    not of that shape. *)
Definition js_to_users (v : JsValue Number) : option (gmap string UserData) :=
  match v with
  | JObj fields =>
      entries ← mapM (λ '(name, d), pair name <$> js_to_userdata d) fields;
      Some (list_to_map entries)
  | _ => None
  end.

(** [getUsers]: the directory read from the store, [{}] when there is
    none, when the read rejects or when the text does not parse. The outer
    [None] is a stored text that parses to something that is not a users
    directory; the typed model stops there. *)
Definition getUsers (read_ok : bool) (st : AuthState)
    : option (gmap string UserData) :=
  if read_ok then
    match storage st !! USERS_KEY with
    | Some text =>
        if decide (text = "") then Some ∅
        else match JSON_parse text with
             | Some parsed => js_to_users parsed
             | None => Some ∅
             end
    | None => Some ∅
    end
  else Some ∅.

(** What [users[name]] evaluates to. The directory is a plain object, so
    a name that it does not own is looked up in [Object.prototype], whose
    only all-lower-case members are [constructor] and [__proto__]
    (usernames are lower-cased before the lookup). *)
Inductive Entry :=
  | Own (d : UserData)
  | Inherited
  | Missing.

Definition users_get (users : gmap string UserData) (name : string) : Entry :=
  match users !! name with
  | Some d => Own d
  | None =>
      if decide (name = "constructor" ∨ name = "__proto__") then Inherited
      else Missing
  end.

Definition failure (message : string) : Result :=
  {| success := false; error := Some message |}.

Definition succeeded : Result := {| success := true; error := None |}.

(** [username.trim().toLowerCase()] *)
Definition normalize (name : string) : string :=
  JsString.toLowerCase (JsString.trim name).

(** [login]. [read_ok] and [write_ok] tell whether the store serves the
    read of the directory and accepts the write of the session; the
    [Exn] result is a rejected promise. *)
Definition login (name pass : string) (read_ok write_ok : bool)
    (st : AuthState) : option ((Exn + Result) * AuthState) :=
  let trimmed := normalize name in
  if decide (trimmed = "" ∨ pass = "") then
    Some (inr (failure "Please enter both username and password"), st)
  else
    users ← getUsers read_ok st;
    match users_get users trimmed with
    | Missing =>
        Some (inr (failure "Account not found. Please sign up first."), st)
    | Inherited => Some (inr (failure "Incorrect password"), st)
    | Own userData =>
        if decide (password userData ≠ pass) then
          Some (inr (failure "Incorrect password"), st)
        else
          let loggedInUser := {| user_id := id userData; username := trimmed |} in
          match setItem CURRENT_USER_KEY
                  (JSON_stringify (user_to_js loggedInUser)) write_ok st with
          | inl e => Some (inl e, st)
          | inr st => Some (inr succeeded, setUser (Some loggedInUser) st)
          end
    end.

(** [signup]. [write_users_ok] and [write_session_ok] are the outcomes of
    the two writes. *)
Definition signup (name pass : string)
    (read_ok write_users_ok write_session_ok : bool) (st : AuthState)
    : option ((Exn + Result) * AuthState) :=
  let trimmed := normalize name in
  if decide (trimmed = "" ∨ pass = "") then
    Some (inr (failure "Please enter both username and password"), st)
  else if decide (String.length trimmed < 3)%nat then
    Some (inr (failure "Username must be at least 3 characters"), st)
  else if decide (String.length pass < 4)%nat then
    Some (inr (failure "Password must be at least 4 characters"), st)
  else
    users ← getUsers read_ok st;
    match users_get users trimmed with
    | Own _ | Inherited =>
        Some (inr (failure "Username already exists"), st)
    | Missing =>
        let '(new_id, w2) := timestamp_id (world st) in
        let st := setWorld w2 st in
        let users := <[trimmed := {| password := pass; id := new_id |}]> users in
        match setItem USERS_KEY (JSON_stringify (users_to_js users))
                write_users_ok st with
        | inl e => Some (inl e, st)
        | inr st =>
            let newUser := {| user_id := new_id; username := trimmed |} in
            match setItem CURRENT_USER_KEY
                    (JSON_stringify (user_to_js newUser))
                    write_session_ok st with
            | inl e => Some (inl e, st)
            | inr st => Some (inr succeeded, setUser (Some newUser) st)
            end
        end
    end.

(** *** The session ([loadCurrentUser], [logout]) *)

Definition setIsLoading (b : bool) (st : AuthState) : AuthState :=
  {| user := user st; isLoading := b; storage := storage st;
     world := world st |}.

(** The typed reading of the parsed session, a [User] or [null] on trust:
    [None] when the value is neither. *)
Definition js_to_session (v : JsValue Number) : option (option User) :=
  match v with
  | JNull => Some None
  | JObj fields =>
      i ← js_string (assoc "id" fields);
      n ← js_string (assoc "username" fields);
      Some (Some {| user_id := i; username := n |})
  | _ => None
  end.

(** [loadCurrentUser], run once when the provider mounts: a stored session
    is parsed and becomes the user; a rejected read and a text that does not
    parse are logged; [isLoading] ends false in every case. The outer [None]
    is a stored text that parses to something that is not a session. *)
Definition loadCurrentUser (read_ok : bool) (st : AuthState)
    : option AuthState :=
  if read_ok then
    match storage st !! CURRENT_USER_KEY with
    | Some text =>
        if decide (text = "") then Some (setIsLoading false st)
        else match JSON_parse text with
             | Some parsed =>
                 u ← js_to_session parsed;
                 Some (setIsLoading false (setUser u st))
             | None => Some (setIsLoading false st)
             end
    | None => Some (setIsLoading false st)
    end
  else Some (setIsLoading false st).

(** [logout]: the session is removed from the store, then the user is
    cleared; a rejected removal rejects the call before the user is cleared *)
Definition logout (remove_ok : bool) (st : AuthState) : Exn + AuthState :=
  if remove_ok then
    inr (setUser None
           {| user := user st; isLoading := isLoading st;
              storage := delete CURRENT_USER_KEY (storage st);
              world := world st |})
  else inl Rejected.

(** the provider as it mounts over a store *)
Definition mounted (m : gmap string string) (w : World) : AuthState :=
  {| user := None; isLoading := true; storage := m; world := w |}.

(** *** The sign-in form ([app/index.tsx], [handleSubmit]) *)

(** [result.error || 'Something went wrong'] *)
Definition error_or_default (e : option string) : string :=
  match e with
  | Some s => if decide (s = "") then "Something went wrong" else s
  | None => "Something went wrong"
  end.

(** [handleSubmit]: the form's [error] and [loading] state when it returns,
    and the provider's state. [attempt] is the call of [login] or [signup]
    that the form makes. *)
Definition handleSubmit
    (attempt : AuthState → option ((Exn + Result) * AuthState))
    (st : AuthState) : option (string * bool * AuthState) :=
  '(outcome, st') ← attempt st;
  let error :=
    match outcome with
    | inr result =>
        if success result then "" else error_or_default (error result)
    | inl _ => "Something went wrong. Please try again."
    end in
  Some (error, false, st').

End AuthContext.
End Auth.

(** ** The chat screen ([app/chat/[id].tsx], [handleSend]) *)

Module ChatScreen.
Section HandleSend.
Context `{Platform}.

(** the argument of a [setMessages] call *)
Inductive MessagesUpdate :=
  | ReplaceAll (l : list Message)        (* [setMessages(newMessages)] *)
  | Append (m : Message)                 (* [prev => [...prev, m]] *)
  | ReplaceLastContent (c : string).     (* [prev => ...] of the else branch *)

(** What [handleSend] does to its collaborators: the setters of the
    screen's React state, the functions of the conversation store and the
    network. *)
Inductive Action :=
  | Haptic
  | SetInputText (s : string)
  | SetMessages (u : MessagesUpdate)
  | CallAddMessage (conversationId : string) (message : Message)
  | CallUpdateConversationTitle (conversationId : string) (t : string)
  | SetIsStreaming (b : bool)
  | SetShowTyping (b : bool)
  | Fetch (history : list (Role * string)).

(** the process environment, the locals [fullContent] and
    [assistantAdded] of one [handleSend] call, and the actions taken so
    far, oldest first *)
Record Frame := {
  env : World;
  fullContent : string;
  assistantAdded : bool;
  actions : list Action;
}.

(** computations that may throw; the frame survives a throw *)
Definition HS (A : Type) : Type := Frame → (Exn + A) * Frame.

Definition ret {A} (a : A) : HS A := λ f, (inr a, f).

Definition bind {A B} (m : HS A) (k : A → HS B) : HS B :=
  λ f, match m f with
       | (inr a, f') => k a f'
       | (inl e, f') => (inl e, f')
       end.

Definition throw {A} (e : Exn) : HS A := λ f, (inl e, f).

(** [try { m } catch (e) { handler e }] *)
Definition try_catch {A} (m : HS A) (handler : Exn → HS A) : HS A :=
  λ f, match m f with
       | (inr a, f') => (inr a, f')
       | (inl e, f') => handler e f'
       end.

(** [try { m } finally { cleanup }] *)
Definition try_finally {A} (m : HS A) (cleanup : HS unit) : HS A :=
  λ f, match m f with
       | (r, f') =>
           match cleanup f' with
           | (inr _, f'') => (r, f'')
           | (inl e, f'') => (inl e, f'')
           end
       end.

Definition emit (a : Action) : HS unit :=
  λ f, (inr tt, {| env := env f; fullContent := fullContent f;
                   assistantAdded := assistantAdded f;
                   actions := actions f ++ [a] |}).

Definition in_world {A} (op : World → A * World) : HS A :=
  λ f, let '(a, w) := op (env f) in
       (inr a, {| env := w; fullContent := fullContent f;
                  assistantAdded := assistantAdded f;
                  actions := actions f |}).

Definition get_fullContent : HS string := λ f, (inr (fullContent f), f).

Definition set_fullContent (s : string) : HS unit :=
  λ f, (inr tt, {| env := env f; fullContent := s;
                   assistantAdded := assistantAdded f;
                   actions := actions f |}).

Definition get_assistantAdded : HS bool := λ f, (inr (assistantAdded f), f).

Definition set_assistantAdded (b : bool) : HS unit :=
  λ f, (inr tt, {| env := env f; fullContent := fullContent f;
                   assistantAdded := b; actions := actions f |}).

(** a value or the exception of a property read *)
Definition lift {A} (r : Exn + A) : HS A :=
  match r with inl e => throw e | inr a => ret a end.

(** [JSON.parse(text)] *)
Definition json_parse (text : string) : HS (JsValue Number) :=
  match JSON_parse text with
  | Some v => ret v
  | None => throw SyntaxError
  end.

Global Instance HS_ret : MRet HS := @ret.
Global Instance HS_bind : MBind HS := λ A B k m, bind m k.

(** [for (const x of l) { body }], where [continue] ends the body *)
Fixpoint for_each {A} (body : A → HS unit) (l : list A) : HS unit :=
  match l with
  | [] => ret tt
  | a :: rest => body a;; for_each body rest
  end.

Definition assistant_message (i c : string) (now : Number) : Message :=
  {| msg_id := i; role := Assistant; content := c; timestamp := now;
     imageBase64 := None |}.

(** the branch [if (parsed.content) { ... }]; an updater passed to
    [setMessages] is taken to run when it is passed *)
Definition on_content (c : JsValue Number) : HS unit :=
  full ← get_fullContent;
  set_fullContent (full +:+ to_string c);;
  added ← get_assistantAdded;
  if negb added then
    emit (SetShowTyping false);;
    i ← in_world generateMessageId;
    full ← get_fullContent;
    now ← in_world date_now;
    emit (SetMessages (Append (assistant_message i full now)));;
    set_assistantAdded true
  else
    full ← get_fullContent;
    emit (SetMessages (ReplaceLastContent full)).

(** The frame that [on_content] leaves, in closed form: the delta is
    appended to [fullContent]; the first delta creates the assistant
    bubble, a later one replaces its content. *)
Definition after_content (s : string) (f : Frame) : Frame :=
  let full := fullContent f +:+ s in
  if assistantAdded f then
    {| env := env f; fullContent := full; assistantAdded := true;
       actions := actions f ++ [SetMessages (ReplaceLastContent full)] |}
  else
    let '(i, w1) := generateMessageId (env f) in
    let '(now, w2) := date_now w1 in
    {| env := w2; fullContent := full; assistantAdded := true;
       actions := actions f ++ [SetShowTyping false;
                                SetMessages
                                  (Append (assistant_message i full now))] |}.

(** the inner [try] block of the line loop *)
Definition handle_payload (data : string) : HS unit :=
  parsed ← json_parse data;
  c ← lift (get_prop parsed "content");
  match c with
  | Some v => if truthy c then on_content v else ret tt
  | None => ret tt
  end;;
  e ← lift (get_prop parsed "error");
  match e with
  | Some v => if truthy e then throw (Error (to_string v)) else ret tt
  | None => ret tt
  end.

(** the body of [for (const line of lines)] *)
Definition process_line (line : string) : HS unit :=
  if negb (JsString.startsWith "data: " line) then ret tt
  else
    let data := JsString.slice_from 6 line in
    if decide (data = "[DONE]") then ret tt
    else
      try_catch (handle_payload data)
        (λ e, match e with SyntaxError => ret tt | _ => throw e end).

(** how the body stream ends: [reader.read()] reports [done], or rejects *)
Inductive StreamEnd := Done | ReadRejects.

(** the complete lines of a whole text: its segments except the last *)
Definition lines_of (text : string) : list string :=
  removelast (JsString.split_newline text).

(** [lines.pop() || ''] and what it leaves in [lines] *)
Definition carry_over (lines : list string) : string := List.last lines "".
Definition complete_lines (lines : list string) : list string :=
  removelast lines.

(** The [while (true)] loop. A chunk is given as the text that
    [decoder.decode(value, { stream: true })] returns for it. *)
Definition end_of_stream (ending : StreamEnd) : HS unit :=
  match ending with
  | Done => ret tt               (* [if (done) break] *)
  | ReadRejects => throw Rejected
  end.

Fixpoint read_loop (buffer : string) (chunks : list string)
    (ending : StreamEnd) : HS unit :=
  match chunks with
  | [] => end_of_stream ending
  | value :: rest =>
      let buffer := buffer +:+ value in
      let lines := JsString.split_newline buffer in
      let buffer := carry_over lines in
      for_each process_line (complete_lines lines);;
      read_loop buffer rest ending
  end.

(** what [fetch] resolves to *)
Inductive FetchResult :=
  | FetchRejects
  | Response (ok : bool) (body : option (list string * StreamEnd)).

Definition fallback_text : string :=
  "Sorry, something went wrong. Please try again.".

(** [text.length > 30 ? text.slice(0, 30) + '...' : text] *)
Definition title_of (text : string) : string :=
  if decide (30 < String.length text)%nat
  then JsString.slice_to 30 text +:+ "..." else text.

(** the outer [try] block *)
Definition request_and_read (id text : string)
    (currentMessages newMessages : list Message) (response : FetchResult)
    : HS unit :=
  emit (Fetch (map (λ m, (role m, content m)) newMessages));;
  match response with
  | FetchRejects => throw Rejected
  | Response ok body =>
      if negb ok then throw (Error "Failed to get response")
      else match body with
           | None => throw (Error "No response body")
           | Some (chunks, ending) =>
               read_loop "" chunks ending;;
               full ← get_fullContent;
               if decide (full = "") then ret tt
               else
                 i ← in_world generateMessageId;
                 now ← in_world date_now;
                 emit (CallAddMessage id (assistant_message i full now));;
                 if decide (length currentMessages = 0)%nat
                 then emit (CallUpdateConversationTitle id (title_of text))
                 else ret tt
           end
  end.

(** the [catch] block *)
Definition on_failure (id : string) : HS unit :=
  emit (SetShowTyping false);;
  i ← in_world generateMessageId;
  now ← in_world date_now;
  let errorMsg := assistant_message i fallback_text now in
  added ← get_assistantAdded;
  (if negb added then emit (SetMessages (Append errorMsg)) else ret tt);;
  emit (CallAddMessage id errorMsg).

(** [handleSend] up to the outer [try]: the user's message is shown and
    handed to the store, and the locals are initialised; the result is
    [newMessages] *)
Definition begin_send (id text : string) (currentMessages : list Message)
    : HS (list Message) :=
  emit Haptic;;
  emit (SetInputText "");;
  i ← in_world generateMessageId;
  now ← in_world date_now;
  let userMessage :=
    {| msg_id := i; role := User; content := text; timestamp := now;
       imageBase64 := None |} in
  let newMessages := currentMessages ++ [userMessage] in
  emit (SetMessages (ReplaceAll newMessages));;
  emit (CallAddMessage id userMessage);;
  emit (SetIsStreaming true);;
  emit (SetShowTyping true);;
  set_fullContent "";;
  set_assistantAdded false;;
  mret newMessages.

(** the [finally] block *)
Definition finish_send : HS unit :=
  emit (SetIsStreaming false);; emit (SetShowTyping false).

Definition handleSend (id inputText : string) (messages : list Message)
    (isStreaming : bool) (response : FetchResult) : HS unit :=
  let text := JsString.trim inputText in
  if decide (text = "") then ret tt
  else if isStreaming then ret tt
  else
    let currentMessages := messages in
    newMessages ← begin_send id text currentMessages;
    try_finally
      (try_catch
         (request_and_read id text currentMessages newMessages response)
         (λ _, on_failure id))
      finish_send.

(** the frame on entry, in a process whose environment is [w] *)
Definition entry (w : World) : Frame :=
  {| env := w; fullContent := ""; assistantAdded := false; actions := [] |}.

(** [handleSend] run in a process whose environment is [w] *)
Definition run_handleSend (id inputText : string) (messages : list Message)
    (isStreaming : bool) (response : FetchResult) (w : World)
    : list Action * World :=
  let '(_, f) :=
    handleSend id inputText messages isStreaming response (entry w) in
  (actions f, env f).

(** the double-quote character, and the JSON text of a content delta,
    an object whose only member is [content] with the string [s], for an
    [s] that needs no escaping *)
Definition dquote : string := String (Ascii.ascii_of_nat 34) "".

Definition content_frame (s : string) : string :=
  "{" +:+ dquote +:+ "content" +:+ dquote +:+ ":" +:+ dquote +:+ s
  +:+ dquote +:+ "}".

(** likewise the JSON text of an error frame, an object whose only
    member is [error] *)
Definition error_frame (s : string) : string :=
  "{" +:+ dquote +:+ "error" +:+ dquote +:+ ":" +:+ dquote +:+ s
  +:+ dquote +:+ "}".

(** a line with its terminating newline *)
Definition line (s : string) : string := s +:+ String JsString.newline "".

(** *** What a run shows and what it persists *)

(** the contents that the run puts into an assistant bubble, in order *)
Definition observations (log : list Action) : list string :=
  omap (λ a, match a with
             | SetMessages (Append m) => Some (content m)
             | SetMessages (ReplaceLastContent c) => Some c
             | _ => None
             end) log.

(** the assistant messages that the run hands to [addMessage], in order *)
Definition persisted_assistant (log : list Action) : list Message :=
  omap (λ a, match a with
             | CallAddMessage _ m =>
                 if decide (role m = Assistant) then Some m else None
             | _ => None
             end) log.

(** the screen's [messages] state after the [setMessages] calls of a log *)
Definition apply_update (u : MessagesUpdate) (prev : list Message)
    : list Message :=
  match u with
  | ReplaceAll l => l
  | Append m => prev ++ [m]
  | ReplaceLastContent c => replace_last_content prev c
  end.

Definition screen_messages (log : list Action) (initial : list Message)
    : list Message :=
  foldl (λ prev a, match a with
                   | SetMessages u => apply_update u prev
                   | _ => prev
                   end) initial log.


(** the lines that the loop passes over with [continue]: those that do
    not start with [data: ], and the line [data: [DONE]] *)
Definition passed_over (l : string) : bool :=
  negb (JsString.startsWith "data: " l)
  || bool_decide (JsString.slice_from 6 l = "[DONE]").

(** the calls of the conversation store that a log holds, in order *)
Definition store_calls (log : list Action) : list Call :=
  omap (λ a, match a with
             | CallAddMessage cid m => Some (AddMessage cid m)
             | CallUpdateConversationTitle cid t =>
                 Some (UpdateConversationTitle cid t)
             | _ => None
             end) log.

(** each displayed content extends the one displayed before it *)
Definition extends_previous (obs : list string) : Prop :=
  ∀ i a b, obs !! i = Some a → obs !! S i = Some b → ∃ d, b = a +:+ d.

(** What the stream loop keeps true of a frame whose log began with
    [pre]: the log has grown by display actions only, each displayed
    content extends the one before, and the bubble, once created, is the
    one message displayed after those of [pre] and shows the accumulated
    text. *)
Definition streaming (pre : list Action) (f : Frame) : Prop :=
  (∃ body, actions f = pre ++ body ∧ store_calls body = []) ∧
  extends_previous (observations (actions f)) ∧
  (if assistantAdded f
   then last (observations (actions f)) = Some (fullContent f)
   else fullContent f = "" ∧ observations (actions f) = []) ∧
  ∃ bubble,
    (∀ init, screen_messages (actions f) init
             = screen_messages pre init ++ bubble) ∧
    (if assistantAdded f
     then ∃ a, bubble = [a] ∧ role a = Assistant ∧ content a = fullContent f
     else bubble = []).

End HandleSend.
End ChatScreen.

(** ** The image screen ([app/image.tsx], [handleGenerate]) *)

Module ImageScreen.
Section HandleGenerate.
Context `{Platform}.

(** The [message] of an exception that the platform raises (a rejected
    [fetch] or [response.json()], a property read on [null]); the empty
    string stands for a reason without a [message]. *)
Variable platform_message : Exn → string.

Inductive Feedback := ImpactLight | NotifySuccess | NotifyError.

(** the screen's React state, and the haptic feedback given so far *)
Record Screen := {
  prompt : string;
  imageData : option (JsValue Number);
  isGenerating : bool;
  error : string;
  feedback : list Feedback;
}.

(** what [fetch] resolves to: [response.ok], and what [response.json()]
    resolves to or rejects with *)
Inductive FetchResult :=
  | FetchRejects
  | Response (ok : bool) (json : Exn + JsValue Number).

(** [e.message] *)
Definition message_of (e : Exn) : string :=
  match e with
  | Error m => m
  | _ => platform_message e
  end.

(** [new Error(errData.error || 'Failed to generate image')] *)
Definition status_error (err : option (JsValue Number)) : Exn :=
  match err with
  | Some v => if truthy err then Error (to_string v)
              else Error "Failed to generate image"
  | None => Error "Failed to generate image"
  end.

(** the [try] block: the value handed to [setImageData], or the exception
    that reaches the [catch] block *)
Definition request (reply : FetchResult) : Exn + JsValue Number :=
  match reply with
  | FetchRejects => inl Rejected
  | Response ok json =>
      if negb ok then
        (* [await response.json().catch(() => ({}))] *)
        let errData := match json with inr v => v | inl _ => JObj [] end in
        match get_prop errData "error" with
        | inl e => inl e
        | inr err => inl (status_error err)
        end
      else
        match json with
        | inl e => inl e
        | inr data =>
            match get_prop data "b64_json" with
            | inl e => inl e
            | inr b =>
                match b with
                | Some v => if truthy b then inr v
                            else inl (Error "No image data received")
                | None => inl (Error "No image data received")
                end
            end
        end
  end.

Definition handleGenerate (reply : FetchResult) (s : Screen) : Screen :=
  let text := JsString.trim (prompt s) in
  if decide (text = "") then s
  else if isGenerating s then s
  else
    let given := feedback s ++ [ImpactLight] in
    match request reply with
    | inr image =>
        {| prompt := prompt s; imageData := Some image;
           isGenerating := false; error := "";
           feedback := given ++ [NotifySuccess] |}
    | inl e =>
        let m := message_of e in
        {| prompt := prompt s; imageData := None; isGenerating := false;
           error := if decide (m = "")
                    then "Failed to generate image. Please try again."
                    else m;
           feedback := given ++ [NotifyError] |}
    end.

End HandleGenerate.
End ImageScreen.

(** ** A reference platform

    An instance of [Platform] on which the definitions above evaluate:
    numbers are the integers, printed in decimal, and the JSON reader and
    writer cover JSON texts whose numbers are integer literals and whose
    characters are code units below U+0100. *)

Module Reference.

Definition quote_char : ascii := Ascii.ascii_of_nat 34.
Definition backslash : ascii := Ascii.ascii_of_nat 92.

Definition is_ws (c : ascii) : bool :=
  let n := Ascii.nat_of_ascii c in
  bool_decide (n = 32 ∨ n = 9 ∨ n = 10 ∨ n = 13)%nat.

Fixpoint skip_ws (s : string) : string :=
  match s with
  | String c s' => if is_ws c then skip_ws s' else s
  | EmptyString => EmptyString
  end.

Definition hex_val (c : ascii) : option nat :=
  let n := Ascii.nat_of_ascii c in
  if bool_decide (48 ≤ n ∧ n ≤ 57)%nat then Some (n - 48)%nat
  else if bool_decide (97 ≤ n ∧ n ≤ 102)%nat then Some (n - 87)%nat
  else if bool_decide (65 ≤ n ∧ n ≤ 70)%nat then Some (n - 55)%nat
  else None.

Definition hex_digit (n : nat) : ascii :=
  if decide (n < 10)%nat then Ascii.ascii_of_nat (48 + n)
  else Ascii.ascii_of_nat (87 + n).

(** the character that follows a backslash, for the two-character escapes *)
Definition unescape (c : ascii) : option ascii :=
  let n := Ascii.nat_of_ascii c in
  if decide (n = 34)%nat then Some quote_char
  else if decide (n = 92)%nat then Some backslash
  else if decide (n = 47)%nat then Some "/"%char
  else if decide (n = 98)%nat then Some (Ascii.ascii_of_nat 8)
  else if decide (n = 102)%nat then Some (Ascii.ascii_of_nat 12)
  else if decide (n = 110)%nat then Some (Ascii.ascii_of_nat 10)
  else if decide (n = 114)%nat then Some (Ascii.ascii_of_nat 13)
  else if decide (n = 116)%nat then Some (Ascii.ascii_of_nat 9)
  else None.

(** the rest of a string literal after its opening quote *)
Fixpoint read_string (s : string) : option (string * string) :=
  match s with
  | EmptyString => None
  | String c rest =>
      if decide (c = quote_char) then Some (EmptyString, rest)
      else if decide (c = backslash) then
        match rest with
        | String e rest1 =>
            if decide (e = "u"%char) then
              match rest1 with
              | String h1 (String h2 (String h3 (String h4 rest2))) =>
                  a ← hex_val h1; b ← hex_val h2;
                  c ← hex_val h3; d ← hex_val h4;
                  if decide (a = 0 ∧ b = 0)%nat then
                    '(body, out) ← read_string rest2;
                    Some (String (Ascii.ascii_of_nat (16 * c + d)) body, out)
                  else None
              | _ => None
              end
            else
              x ← unescape e;
              '(body, out) ← read_string rest1;
              Some (String x body, out)
        | EmptyString => None
        end
      else if decide (Ascii.nat_of_ascii c < 32)%nat then None
      else
        '(body, out) ← read_string rest;
        Some (String c body, out)
  end.

(** the longest prefix of decimal digits, as a number, and its length *)
Fixpoint read_digits (acc : Z) (n : nat) (s : string) : Z * nat * string :=
  match s with
  | String c rest =>
      match Ascii.is_nat c with
      | Some d => read_digits (10 * acc + Z.of_nat d)%Z (S n) rest
      | None => (acc, n, s)
      end
  | EmptyString => (acc, n, s)
  end.

Definition starts_fraction (s : string) : bool :=
  match s with
  | String c _ =>
      bool_decide (c = "."%char ∨ c = "e"%char ∨ c = "E"%char)
  | EmptyString => false
  end.

(** an integer literal without sign: no leading zero, no fraction, no
    exponent *)
Definition read_int (s : string) : option (Z * string) :=
  let '(z, n, rest) := read_digits 0 0 s in
  if decide (n = 0)%nat then None
  else if bool_decide (1 < n)%nat && JsString.startsWith "0" s then None
  else if starts_fraction rest then None
  else Some (z, rest).

(** [fields] with the property [k] set to [v]: an existing property keeps
    its place *)
Fixpoint set_field (k : string) (v : JsValue Z)
    (fields : list (string * JsValue Z)) : list (string * JsValue Z) :=
  match fields with
  | [] => [(k, v)]
  | (k', v') :: rest =>
      if decide (k' = k) then (k, v) :: rest
      else (k', v') :: set_field k v rest
  end.

Definition expect (lit : string) (v : JsValue Z) (s : string)
    : option (JsValue Z * string) :=
  if JsString.startsWith lit s
  then Some (v, JsString.slice_from (String.length lit) s) else None.

Fixpoint read_value (fuel : nat) (s : string) : option (JsValue Z * string) :=
  match fuel with
  | O => None
  | S fuel =>
      match skip_ws s with
      | EmptyString => None
      | String c rest =>
          if decide (c = "n"%char) then expect "null" JNull (String c rest)
          else if decide (c = "t"%char) then
            expect "true" (JBool true) (String c rest)
          else if decide (c = "f"%char) then
            expect "false" (JBool false) (String c rest)
          else if decide (c = quote_char) then
            '(str, out) ← read_string rest; Some (JStr str, out)
          else if decide (c = "["%char) then
            match skip_ws rest with
            | String d rest1 =>
                if decide (d = "]"%char) then Some (JArr [], rest1)
                else '(items, out) ← read_items fuel [] rest;
                     Some (JArr items, out)
            | EmptyString => None
            end
          else if decide (c = "{"%char) then
            match skip_ws rest with
            | String d rest1 =>
                if decide (d = "}"%char) then Some (JObj [], rest1)
                else '(fields, out) ← read_members fuel [] rest;
                     Some (JObj fields, out)
            | EmptyString => None
            end
          else if decide (c = "-"%char) then
            '(z, out) ← read_int rest; Some (JNum (- z)%Z, out)
          else
            '(z, out) ← read_int (String c rest); Some (JNum z, out)
      end
  end
with read_items (fuel : nat) (acc : list (JsValue Z)) (s : string)
    : option (list (JsValue Z) * string) :=
  match fuel with
  | O => None
  | S fuel =>
      '(v, s1) ← read_value fuel s;
      match skip_ws s1 with
      | String c rest =>
          if decide (c = ","%char) then read_items fuel (acc ++ [v]) rest
          else if decide (c = "]"%char) then Some (acc ++ [v], rest)
          else None
      | EmptyString => None
      end
  end
with read_members (fuel : nat) (acc : list (string * JsValue Z)) (s : string)
    : option (list (string * JsValue Z) * string) :=
  match fuel with
  | O => None
  | S fuel =>
      match skip_ws s with
      | String q s0 =>
          if decide (q = quote_char) then
            '(k, s1) ← read_string s0;
            match skip_ws s1 with
            | String c s2 =>
                if decide (c = ":"%char) then
                  '(v, s3) ← read_value fuel s2;
                  match skip_ws s3 with
                  | String d rest =>
                      if decide (d = ","%char)
                      then read_members fuel (set_field k v acc) rest
                      else if decide (d = "}"%char)
                      then Some (set_field k v acc, rest)
                      else None
                  | EmptyString => None
                  end
                else None
            | EmptyString => None
            end
          else None
      | EmptyString => None
      end
  end.

(** [JSON.parse]: one value, surrounded by white space only *)
Definition parse (text : string) : option (JsValue Z) :=
  '(v, rest) ← read_value (2 * String.length text + 2) text;
  if decide (skip_ws rest = "") then Some v else None.

Definition write_char (c : ascii) : string :=
  let n := Ascii.nat_of_ascii c in
  if decide (n = 34)%nat then String backslash (String quote_char "")
  else if decide (n = 92)%nat then String backslash (String backslash "")
  else if decide (n = 8)%nat then String backslash "b"
  else if decide (n = 12)%nat then String backslash "f"
  else if decide (n = 10)%nat then String backslash "n"
  else if decide (n = 13)%nat then String backslash "r"
  else if decide (n = 9)%nat then String backslash "t"
  else if decide (n < 32)%nat then
    String backslash
      (String "u" (String "0" (String "0"
         (String (hex_digit (n / 16)) (String (hex_digit (n mod 16)) "")))))
  else String c "".

Fixpoint write_chars (s : string) : string :=
  match s with
  | EmptyString => EmptyString
  | String c rest => write_char c +:+ write_chars rest
  end.

Definition write_string (s : string) : string :=
  String quote_char (write_chars s +:+ String quote_char "").

(** [JSON.stringify] *)
Fixpoint stringify (v : JsValue Z) : string :=
  match v with
  | JNull => "null"
  | JBool true => "true"
  | JBool false => "false"
  | JNum z => pretty z
  | JStr s => write_string s
  | JArr items => "[" +:+ JsString.join "," (map stringify items) +:+ "]"
  | JObj fields =>
      "{" +:+ JsString.join ","
                (map (λ kv, write_string kv.1 +:+ ":" +:+ stringify kv.2)
                   fields) +:+ "}"
  end.

(** the reference platform with a given clock and random source *)
Definition platform (clock : nat → Z) (random : nat → list N) : Platform :=
  {| Number := Z;
     Number_truthy := λ z, negb (bool_decide (z = 0%Z));
     Number_toString := pretty;
     JSON_parse := parse;
     JSON_stringify := stringify;
     Date_now := clock;
     Math_random := random |}.

(** a clock that stands still and a random source that repeats itself *)
Definition frozen : Platform :=
  platform (λ _, 1700000000000%Z) (λ _, [10; 11; 12; 1; 2; 3]%N).

(** a clock that advances by one millisecond per reading, from a small
    epoch so that identifiers stay short *)
Definition ticking : Platform :=
  platform (λ k, (1000 + Z.of_nat k)%Z) (λ k, [N.of_nat k; 7; 35; 0]%N).

End Reference.

(** ** Concrete runs on the reference platform *)

Module Examples.
Import ChatScreen.

#[local] Existing Instance Reference.ticking.

Definition nl : string := String JsString.newline "".

(** a fresh process *)
Definition w0 : World :=
  {| msgCounter := 0; clock_reads := 0; random_reads := 0 |}.

(** the example stream of the specification, chunked at line ends *)
Definition hi_chunks : list string :=
  [line ("data: " +:+ content_frame "Hi");
   line ("data: " +:+ content_frame "Hi there");
   line "data: [DONE]"].

(** the same text cut in the middle of its first and of its last line *)
Definition hi_chunks_midline : list string :=
  ["data: {" +:+ dquote +:+ "con";
   "tent" +:+ dquote +:+ ":" +:+ dquote +:+ "Hi" +:+ dquote +:+ "}" +:+ nl
     +:+ line ("data: " +:+ content_frame "Hi there") +:+ "data: [DO";
   "NE]" +:+ nl].

(** a delta followed by an error frame *)
Definition failing_chunks : list string :=
  [line ("data: " +:+ content_frame "Hi");
   line ("data: " +:+ error_frame "boom")].

(** a line that is not JSON, cut in two, then a delta *)
Definition noisy_chunks : list string :=
  ["data: {not js";
   "on" +:+ nl +:+ line ("data: " +:+ content_frame "ok")].

Definition hi_log (chunks : list string) : list Action :=
  (run_handleSend "c1" "hello" [] false
     (Response true (Some (chunks, Done))) w0).1.

(** two conversations, stored for two users *)
Definition convA : Conversation :=
  {| conv_id := "a1"; title := "Of A";
     messages := [{| msg_id := "m1"; role := User; content := "from A";
                     timestamp := 5%Z; imageBase64 := None |}];
     createdAt := 1%Z; updatedAt := 5%Z |}.

Definition convB : Conversation :=
  {| conv_id := "b1"; title := "Of B"; messages := [];
     createdAt := 2%Z; updatedAt := 2%Z |}.

Definition keyA : string := chats_key "A".
Definition keyB : string := chats_key "B".

Definition two_users : gmap string string :=
  <[keyA := JSON_stringify (conversations_to_js [convA])]>
    (<[keyB := JSON_stringify (conversations_to_js [convB])]> ∅).

(** the provider of a signed-in user with nothing stored *)
Definition signed_in : ChatState :=
  {| conversations := []; conversationsRef := []; isLoading := false;
     saveTimer := false; storageKey := Some keyA; pendingLoads := [];
     storage := ∅; world := w0 |}.

(** the id that [createConversation] gives the first conversation of
    [signed_in] *)
Definition first_id : string := (createConversation None signed_in).1.

Definition some_edits : list Call :=
  [CreateConversation (Some "Trip");
   AddMessage first_id
     {| msg_id := "m1"; role := User; content := "hello" +:+ nl +:+ dquote;
        timestamp := 7%Z; imageBase64 := None |};
   CreateConversation None;
   AddMessage "nobody" {| msg_id := "m2"; role := Assistant; content := "x";
                          timestamp := 8%Z; imageBase64 := Some "QUJD" |};
   DeleteConversation "unknown"].

(** no account yet *)
Definition no_accounts : Auth.AuthState :=
  {| Auth.user := None; Auth.isLoading := false; Auth.storage := ∅;
     Auth.world := w0 |}.

(** the state that the signup of Alice leaves *)
Definition alice_signed_up : Auth.AuthState :=
  match Auth.signup "Alice" "pass1" true true true no_accounts with
  | Some (_, st) => st
  | None => no_accounts
  end.

(** [handleSend] on the failing stream: what [begin_send] returns and
    leaves, and the frame in which the outer [try] block fails *)
Definition begun_messages : list Message :=
  match (begin_send "c1" "hello" [] (entry w0)).1 with
  | inr l => l
  | inl _ => []
  end.

Definition begun_frame : Frame := (begin_send "c1" "hello" [] (entry w0)).2.

Definition failed_frame : Frame :=
  (request_and_read "c1" "hello" [] begun_messages
     (Response true (Some (failing_chunks, Done))) begun_frame).2.

(** a conversation with two messages *)
Definition talk : Conversation :=
  {| conv_id := "t1"; title := "Talk";
     messages := [{| msg_id := "m1"; role := User; content := "question";
                     timestamp := 5%Z; imageBase64 := None |};
                  {| msg_id := "m2"; role := Assistant; content := "ans";
                     timestamp := 6%Z; imageBase64 := None |}];
     createdAt := 1%Z; updatedAt := 6%Z |}.

Definition with_talk : ChatState :=
  {| conversations := [convB; talk]; conversationsRef := [convB; talk];
     isLoading := false; saveTimer := false; storageKey := Some keyA;
     pendingLoads := []; storage := two_users; world := w0 |}.

(** the session that the login of Alice leaves *)
Definition alice_logged_in : Auth.AuthState :=
  match Auth.login "  alice " "pass1" true true alice_signed_up with
  | Some (_, st) => st
  | None => alice_signed_up
  end.

(** the directory that the store of [alice_signed_up] holds *)
Definition alice_directory : gmap string Auth.UserData :=
  default ∅ (Auth.getUsers true alice_signed_up).

(** an edit, its save, a sign-out and a call of [persistNow] *)
Definition some_events : list Event :=
  [Api (CreateConversation (Some "Trip")); TimerFires true;
   StorageKeyChanges None; Api (PersistNow true)].

Definition after_events : ChatState :=
  persistNow true
    (storageKey_changes None
       (saveTimer_fires true
          (call (CreateConversation (Some "Trip")) signed_in))).

(** the provider while the load for A is pending and B has become active *)
Definition switching : ChatState :=
  storageKey_changes (Some keyB)
    (storageKey_changes (Some keyA) (mounted two_users w0)).

(** a store whose text under the key of A is not JSON, and the provider
    while it loads that text *)
Definition broken_store : gmap string string := <[keyA := "{not json"]> ∅.

Definition loading_broken : ChatState :=
  storageKey_changes (Some keyA) (mounted broken_store w0).

End Examples.

(** * Properties *)

Local Arguments String.append !_ _ / : simpl nomatch.

(** ** Identifier uniqueness *)

Lemma string_app_assoc (a b c : string) : (a +:+ b) +:+ c = a +:+ b +:+ c.
Proof. induction a as [|x a IH]; simpl; [done|by rewrite IH]. Qed.

Lemma string_app_nil_r (a : string) : a +:+ "" = a.
Proof. induction a as [|x a IH]; simpl; [done|by rewrite IH]. Qed.

Lemma has_dash_app (a b : string) :
  has_dash (a +:+ b) = has_dash a || has_dash b.
Proof.
  induction a as [|c a IH]; simpl; [done|].
  by destruct (decide (c = "-"%char)).
Qed.

(** The last dash of a string determines how it splits. *)
Lemma split_at_last_dash (x1 x2 r1 r2 : string) :
  has_dash r1 = false → has_dash r2 = false →
  x1 +:+ "-" +:+ r1 = x2 +:+ "-" +:+ r2 → x1 = x2 ∧ r1 = r2.
Proof.
  intros Hr1 Hr2. revert x2.
  induction x1 as [|a x1 IH]; intros [|b x2]; simpl; intros Heq.
  - by simplify_eq.
  - injection Heq as _ Heq. rewrite Heq, has_dash_app in Hr1.
    simpl in Hr1. by rewrite orb_true_r in Hr1.
  - injection Heq as _ Heq. rewrite <-Heq, has_dash_app in Hr2.
    simpl in Hr2. by rewrite orb_true_r in Hr2.
  - injection Heq as -> Heq. destruct (IH _ Heq) as [-> ->]. done.
Qed.

Lemma pretty_N_go_no_dash (x : N) (s : string) :
  has_dash s = false → has_dash (pretty_N_go x s) = false.
Proof.
  revert s. induction (N.lt_wf_0 x) as [x _ IH]; intros s Hs.
  destruct (decide (x = 0)%N) as [->|Hx]; [by rewrite pretty_N_go_0|].
  rewrite pretty_N_go_step by lia.
  apply IH; [apply N.div_lt; lia|].
  simpl. rewrite Hs. unfold pretty_N_char. by repeat case_match.
Qed.

Lemma pretty_Z_no_dash (k : Z) : (0 ≤ k)%Z → has_dash (pretty k) = false.
Proof.
  destruct k as [|p|p]; intros Hk; [done| |lia].
  unfold pretty, pretty_Z, pretty, pretty_positive, pretty, pretty_N.
  case_decide; [done|]. by apply pretty_N_go_no_dash.
Qed.

Lemma base36_char_no_dash (d : N) : base36_char d ≠ "-"%char.
Proof.
  unfold base36_char.
  assert (Forall (λ c, c ≠ "-"%char) base36_digits) as Hall.
  { unfold base36_digits. simpl. repeat constructor; discriminate. }
  destruct (nth_in_or_default (N.to_nat d) base36_digits "z"%char) as [Hin| ->];
    [|discriminate].
  rewrite Forall_forall in Hall. apply Hall. by apply list_elem_of_In.
Qed.

Lemma base36_string_no_dash (ds : list N) :
  has_dash (String.string_of_list_ascii (map base36_char ds)) = false.
Proof.
  induction ds as [|d ds IH]; simpl; [done|].
  destruct (decide _) as [Hd|_]; [by apply base36_char_no_dash in Hd|done].
Qed.

Section IdProperties.
Context `{Platform}.

Lemma message_id_inj (t1 t2 : string) (k1 k2 : Z) (r1 r2 : string) :
  (0 ≤ k1)%Z → (0 ≤ k2)%Z → has_dash r1 = false → has_dash r2 = false →
  message_id t1 k1 r1 = message_id t2 k2 r2 → k1 = k2.
Proof.
  intros Hk1 Hk2 Hr1 Hr2 Heq. unfold message_id in Heq.
  apply (inj (String.app "msg-")) in Heq.
  rewrite <-!(string_app_assoc _ (pretty _) ("-" +:+ _)) in Heq.
  rewrite <-!(string_app_assoc _ ("-" +:+ pretty _) ("-" +:+ _)) in Heq.
  apply split_at_last_dash in Heq as [Heq _]; [|done..].
  apply split_at_last_dash in Heq as [_ Heq];
    [|by apply pretty_Z_no_dash..].
  by apply (inj pretty) in Heq.
Qed.

Lemma generated_ids_shape (calls : list (nat * nat)) (c : Z) :
  (0 ≤ c)%Z → (c + Z.of_nat (length calls) ≤ 2 ^ 53)%Z →
  ∀ id, id ∈ generated_ids calls c →
    ∃ t k r, id = message_id t k r ∧ (c < k)%Z ∧ has_dash r = false.
Proof.
  revert c. induction calls as [|[i j] calls IH]; intros c Hc Hlen id Hid.
  { by apply elem_of_nil in Hid. }
  simpl in Hid, Hlen. unfold number_succ in Hid.
  destruct (decide (c < 2 ^ 53)%Z) as [_|?]; [|lia].
  apply elem_of_cons in Hid as [->|Hid].
  - eexists _, _, _. split; [done|]. split; [lia|].
    apply base36_string_no_dash.
  - apply IH in Hid as (t & k & r & -> & Hk & Hr); [|lia..].
    exists t, k, r. split; [done|]. split; [lia|done].
Qed.

(** C8. Within one process, starting from [msgCounter = 0], the
    identifiers returned by any sequence of at most 2^53 calls of
    [generateMessageId] are pairwise different, whatever the clock and the
    random source return: calls in the same millisecond that draw the same
    random digits still differ in the counter field. *)
Theorem generateMessageId_unique (calls : list (nat * nat)) :
  (Z.of_nat (length calls) ≤ 2 ^ 53)%Z → NoDup (generated_ids calls 0).
Proof.
  assert (∀ c, (0 ≤ c)%Z → (c + Z.of_nat (length calls) ≤ 2 ^ 53)%Z →
               NoDup (generated_ids calls c)) as Hgen; [|intros; apply Hgen; lia].
  induction calls as [|[i j] calls IH]; intros c Hc Hlen; [constructor|].
  simpl in Hlen |- *. unfold number_succ.
  destruct (decide (c < 2 ^ 53)%Z) as [_|?]; [|lia].
  constructor; [|apply IH; lia].
  intros Hin. apply generated_ids_shape in Hin as (t & k & r & Heq & Hk & Hr);
    [|lia..].
  apply message_id_inj in Heq; [lia|lia|lia| |done].
  apply base36_string_no_dash.
Qed.

End IdProperties.

(** ** The conversation store *)

Section ChatProperties.
Context `{Platform}.

Implicit Types (st : ChatState) (w : World) (c : Conversation) (m : Message).

(** *** [prev.map] with a clock-reading callback *)

Lemma map_world_app {A B} (f : A → World → B * World) (l1 l2 : list A) w :
  map_world f (l1 ++ l2) w =
    let '(bs1, w1) := map_world f l1 w in
    let '(bs2, w2) := map_world f l2 w1 in
    (bs1 ++ bs2, w2).
Proof.
  revert w. induction l1 as [|a l1 IH]; intros w; simpl.
  { by destruct (map_world f l2 w). }
  destruct (f a w) as [b w1]. rewrite IH.
  destruct (map_world f l1 w1) as [bs1 w2].
  by destruct (map_world f l2 w2).
Qed.

Lemma map_world_length {A B} (f : A → World → B * World) (l : list A) w :
  length (map_world f l w).1 = length l.
Proof.
  revert w. induction l as [|a l IH]; intros w; simpl; [done|].
  destruct (f a w) as [b w1]. specialize (IH w1).
  destruct (map_world f l w1) as [bs w2]. simpl in *. by rewrite IH.
Qed.

(** the [i]-th result is the callback's, run in the world that the
    elements before it have left *)
Lemma map_world_lookup {A B} (f : A → World → B * World) (l : list A) w i a :
  l !! i = Some a →
  (map_world f l w).1 !! i = Some (f a (map_world f (take i l) w).2).1.
Proof.
  revert w i. induction l as [|x l IH]; intros w i Hi; [done|].
  destruct i as [|i]; simpl in *.
  - injection Hi as ->. destruct (f a w) as [b w1].
    by destruct (map_world f l w1).
  - destruct (f x w) as [b w1]. specialize (IH w1 i Hi).
    destruct (map_world f l w1) as [bs w2].
    destruct (map_world f (take i l) w1) as [bs' w2']. done.
Qed.

(** a callback that leaves unchanged every element outside [P] makes the
    whole map the identity when no element is in [P] *)
Lemma map_world_id {A} (f : A → World → A * World) (l : list A) w :
  Forall (λ a, ∀ w, f a w = (a, w)) l → map_world f l w = (l, w).
Proof.
  induction 1 as [|a l Ha _ IH]; simpl; [done|]. by rewrite Ha, IH.
Qed.

Lemma map_world_clock_mono {A B} (f : A → World → B * World) (l : list A) w :
  (∀ a w, (clock_reads w ≤ clock_reads (f a w).2)%nat) →
  (clock_reads w ≤ clock_reads (map_world f l w).2)%nat.
Proof.
  intros Hf. revert w. induction l as [|a l IH]; intros w; simpl; [done|].
  specialize (Hf a w). destruct (f a w) as [b w1]. specialize (IH w1).
  destruct (map_world f l w1) as [bs w2]. simpl in *. lia.
Qed.

(** *** Replacing the content of the last message *)

Lemma replace_last_content_snoc (init : list Message) (last : Message)
    (s : string) :
  replace_last_content (init ++ [last]) s = init ++ [with_content last s].
Proof.
  unfold replace_last_content. rewrite length_app. simpl.
  replace (length init + 1 - 1)%nat with (length init + 0)%nat by lia.
  rewrite lookup_app_r by lia.
  replace (length init + 0 - length init)%nat with 0%nat by lia. simpl.
  by rewrite insert_app_r.
Qed.

Lemma replace_last_content_nil (s : string) : replace_last_content [] s = [].
Proof. done. Qed.

Lemma updateLastMessage_callback_clock (cid s : string) c w :
  (clock_reads w ≤ clock_reads (updateLastMessage_callback cid s c w).2)%nat.
Proof. unfold updateLastMessage_callback. case_decide; simpl; lia. Qed.

(** C10. [updateLastMessage(conversationId, content)] leaves the whole
    list unchanged when no conversation with that id has a message; in
    general it keeps the length and the order of the list, returns
    unchanged every conversation with another id or without messages, and
    in a conversation with that id and at least one message it replaces
    the content of the last message only (same id, role, timestamp and
    image), keeps the earlier messages, the id, title and creation time,
    and sets [updatedAt] to a clock value read during the call. *)
Theorem updateLastMessage_spec (cid s : string) st :
  let st' := updateLastMessage cid s st in
  conversationsRef st' = conversations st' ∧
  ((∀ c, c ∈ conversations st → conv_id c = cid → messages c = []) →
     conversations st' = conversations st) ∧
  length (conversations st') = length (conversations st) ∧
  ∀ i c, conversations st !! i = Some c →
    ∃ c', conversations st' !! i = Some c' ∧
      ((conv_id c ≠ cid ∨ messages c = []) → c' = c) ∧
      (conv_id c = cid → messages c ≠ [] →
         ∃ init last k,
           messages c = init ++ [last] ∧
           c' = {| conv_id := conv_id c; title := title c;
                   messages :=
                     init ++ [{| msg_id := msg_id last; role := role last;
                                 content := s; timestamp := timestamp last;
                                 imageBase64 := imageBase64 last |}];
                   createdAt := createdAt c; updatedAt := Date_now k |} ∧
           (clock_reads (world st) ≤ k < clock_reads (world st'))%nat).
Proof.
  unfold updateLastMessage, updateLastMessage_updater.
  set (f := updateLastMessage_callback cid s).
  pose proof (map_world_length f (conversations st) (world st)) as Hlen.
  pose proof (λ i c, map_world_lookup f (conversations st) (world st) i c)
    as Hlook.
  destruct (map_world f (conversations st) (world st)) as [updated w'] eqn:Hmap.
  simpl in *. split; [done|]. split; [|split; [done|]].
  - intros Hnone.
    assert (map_world f (conversations st) (world st)
            = (conversations st, world st)) as Hid; [|congruence].
    apply map_world_id, Forall_forall. intros c Hc w.
    unfold f, updateLastMessage_callback.
    case_decide as Hd; [|done]. destruct Hd as [Hd1 Hd2].
    rewrite (Hnone c Hc Hd1) in Hd2. simpl in Hd2. lia.
  - intros i c Hi. specialize (Hlook i c Hi).
    set (wi := (map_world f (take i (conversations st)) (world st)).2) in *.
    exists (f c wi).1. split; [done|]. split.
    + intros Hno. unfold f, updateLastMessage_callback. case_decide as Hd; [|done].
      destruct Hd as [Hd1 Hd2], Hno as [?|Hno]; [done|].
      rewrite Hno in Hd2. simpl in Hd2. lia.
    + intros Hid Hne.
      destruct (decide (messages c = [])) as [|_]; [done|].
      assert (∃ init last, messages c = init ++ [last]) as (init & last & Hm).
      { destruct (messages c) as [|m ms] using rev_ind; [done|eauto]. }
      exists init, last, (clock_reads wi). split; [done|]. split.
      * unfold f, updateLastMessage_callback. rewrite decide_True.
        2:{ split; [done|]. rewrite Hm, length_app. simpl. lia. }
        simpl. unfold with_messages. rewrite Hm, replace_last_content_snoc.
        done.
      * split.
        { apply (map_world_clock_mono f), updateLastMessage_callback_clock. }
        assert (conversations st
                = take i (conversations st) ++ c :: drop (S i) (conversations st))
          as Hsplit.
        { by rewrite <-(take_drop_middle _ _ _ Hi) at 1. }
        pose proof Hmap as Hmap'. rewrite Hsplit, map_world_app in Hmap'.
        fold wi in Hmap'.
        destruct (map_world f (take i (conversations st)) (world st))
          as [bs1 w1] eqn:Hm1.
        simpl in wi. subst wi. simpl in Hmap'.
        unfold f at 1, updateLastMessage_callback in Hmap'.
        rewrite decide_True in Hmap'.
        2:{ split; [done|]. rewrite Hm, length_app. simpl. lia. }
        simpl in Hmap'.
        pose proof (map_world_clock_mono f (drop (S i) (conversations st))
          {| msgCounter := msgCounter w1; clock_reads := S (clock_reads w1);
             random_reads := random_reads w1 |}
          (updateLastMessage_callback_clock cid s))
          as Hmono.
        destruct (map_world f (drop (S i) (conversations st)) _) as [bs2 w2].
        injection Hmap' as _ <-. simpl in Hmono. lia.
Qed.

(** *** Writes to the store *)

Lemma updateLastMessage_frame (cid s : string) st :
  storage (updateLastMessage cid s st) = storage st ∧
  saveTimer (updateLastMessage cid s st) = saveTimer st ∧
  storageKey (updateLastMessage cid s st) = storageKey st ∧
  pendingLoads (updateLastMessage cid s st) = pendingLoads st.
Proof.
  unfold updateLastMessage.
  by destruct (updateLastMessage_updater cid s (conversations st) (world st)).
Qed.

Lemma updateLastMessage_calls_frame (updates : list (string * string)) st :
  let st' := calls (map (λ u, UpdateLastMessage u.1 u.2) updates) st in
  storage st' = storage st ∧ saveTimer st' = saveTimer st ∧
  storageKey st' = storageKey st ∧ pendingLoads st' = pendingLoads st.
Proof.
  revert st. induction updates as [|[cid s] updates IH]; intros st; [done|].
  specialize (IH (updateLastMessage cid s st)). simpl in IH |- *.
  destruct IH as (-> & -> & -> & ->). apply updateLastMessage_frame.
Qed.

Lemma schedules_save_call (c : Call) st :
  schedules_save c = true →
  saveTimer (call c st) = true ∧ storage (call c st) = storage st ∧
  storageKey (call c st) = storageKey st.
Proof.
  destruct c as [t|id|cid m|cid s|cid t|ok]; intros Hc; try done; simpl.
  unfold addMessage.
  by destruct (addMessage_updater cid m (conversations st) (world st)).
Qed.

(** C5. Any number of [updateLastMessage] calls leaves the store, the
    debounce timer, the storage key and the pending loads as they were, so
    that without an earlier scheduled save nothing is written; each of
    [createConversation], [deleteConversation], [addMessage] and
    [updateConversationTitle] arms the timer without writing, and the
    timer's firing then writes the current list under the active key;
    [persistNow] writes it at once. *)
Theorem updateLastMessage_never_writes (updates : list (string * string)) st :
  let st' := calls (map (λ u, UpdateLastMessage u.1 u.2) updates) st in
  (storage st' = storage st ∧ saveTimer st' = saveTimer st ∧
   storageKey st' = storageKey st ∧ pendingLoads st' = pendingLoads st) ∧
  (saveTimer st = false → ∀ ok, saveTimer_fires ok st' = st') ∧
  (∀ a, schedules_save a = true →
     saveTimer (call a st') = true ∧ storage (call a st') = storage st' ∧
     ∀ key, storageKey st' = Some key →
       storage (saveTimer_fires true (call a st')) =
         <[key := JSON_stringify
                    (conversations_to_js (conversationsRef (call a st')))]>
           (storage st')) ∧
  (∀ key, storageKey st' = Some key →
     storage (persistNow true st') =
       <[key := JSON_stringify (conversations_to_js (conversationsRef st'))]>
         (storage st')).
Proof.
  intros st'.
  pose proof (updateLastMessage_calls_frame updates st) as Hframe.
  fold st' in Hframe. destruct Hframe as (Hs & Ht & Hk & Hp).
  split; [done|]. split; [|split].
  - intros Hoff ok. unfold saveTimer_fires. by rewrite Ht, Hoff.
  - intros a Ha. destruct (schedules_save_call a st' Ha) as (Ht' & Hs' & Hk').
    split; [done|]. split; [done|]. intros key Hkey.
    unfold saveTimer_fires. rewrite Ht'. simpl. rewrite Hk', Hkey.
    unfold save_to. simpl. by rewrite Hs'.
  - intros key Hkey. unfold persistNow. rewrite Hkey. done.
Qed.

(** *** The serialised form reads back *)

Lemma js_to_message_to_js m : js_to_message (message_to_js m) = Some m.
Proof. by destruct m as [i [] s t [img|]]. Qed.

Lemma js_to_conversation_to_js c :
  js_to_conversation (conversation_to_js c) = Some c.
Proof.
  destruct c as [i t ms ca ua]. unfold conversation_to_js, js_to_conversation.
  simpl. rewrite mapM_fmap_Some by apply js_to_message_to_js. done.
Qed.

Lemma js_to_conversations_to_js (cs : list Conversation) :
  js_to_conversations (conversations_to_js cs) = Some cs.
Proof.
  unfold conversations_to_js, js_to_conversations.
  apply mapM_fmap_Some, js_to_conversation_to_js.
Qed.

(** *** Edits *)

Lemma map_world_Forall2 {A B} (R : A → B → Prop) (f : A → World → B * World)
    (l : list A) w :
  (∀ a w, R a (f a w).1) → Forall2 R l (map_world f l w).1.
Proof.
  intros HR. revert w. induction l as [|a l IH]; intros w; simpl.
  { constructor. }
  specialize (HR a w). destruct (f a w) as [b w1]. specialize (IH w1).
  destruct (map_world f l w1) as [bs w2]. by constructor.
Qed.

Lemma edit_reflected (a : Call) st :
  is_edit a →
  reflects_call a (conversations st) (conversations (call a st)) ∧
  conversationsRef (call a st) = conversations (call a st) ∧
  storageKey (call a st) = storageKey st.
Proof.
  destruct a as [t|id|cid m|cid s|cid t|ok]; intros Ha; try done; simpl.
  - split; [|done]. by constructor.
  - split; [|done]. constructor.
  - unfold addMessage, addMessage_updater.
    pose proof (map_world_Forall2
      (λ c c', if decide (conv_id c = cid) then
                 messages c' = messages c ++ [m] ∧ conv_id c' = conv_id c ∧
                 title c' = title c ∧ createdAt c' = createdAt c
               else c' = c)
      (addMessage_callback cid m) (conversations st) (world st)) as HF.
    destruct (map_world _ _ _) as [updated w]. simpl in *.
    split; [|done]. constructor. apply HF.
    intros c w0. unfold addMessage_callback. by case_decide.
Qed.

Lemma edits_reflected (edits : list Call) st :
  Forall is_edit edits →
  conversationsRef st = conversations st →
  reflects edits (conversations st) (conversations (calls edits st)) ∧
  conversationsRef (calls edits st) = conversations (calls edits st) ∧
  storageKey (calls edits st) = storageKey st.
Proof.
  intros Hall. revert st. induction Hall as [|a edits Ha _ IH]; intros st Hst.
  { split; [constructor|done]. }
  destruct (edit_reflected a st Ha) as (Hr & Href & Hkey).
  destruct (IH (call a st) Href) as (Hrs & Hrefs & Hkeys).
  simpl. split; [by econstructor|]. split; [done|congruence].
Qed.


(** *** Switching the storage key while a load is pending *)

Lemma storageKey_changes_to (key : string) st :
  storageKey st ≠ Some key →
  storageKey_changes (Some key) st
  = setPendingLoads (pendingLoads st ++ [key])
      (setIsLoading true (clearSaveTimer (setStorageKey (Some key) st))).
Proof.
  intros Hne. unfold storageKey_changes.
  destruct (decide (Some key = storageKey st)) as [Heq|_]; [|done].
  by rewrite <-Heq in Hne.
Qed.

(** a load that resolves is applied, whatever the active key is by then *)
Lemma load_resolves_applies (i : nat) (key : string) st
    (cs : list Conversation) :
  pendingLoads st !! i = Some key →
  loaded_conversations (inr (storage st !! key)) = Some cs →
  load_resolves i true st
  = Some (setIsLoading false
            (commit cs (setPendingLoads (delete i (pendingLoads st)) st))).
Proof.
  intros Hi Hcs. unfold load_resolves. rewrite Hi, Hcs. done.
Qed.

(** C2 (as the code has it). When the storage key changes to [keyA] and
    then to [keyB] while the load for [keyA] is still pending, both loads
    stay pending and each one, when it resolves, replaces the in-memory
    list: the list that is retained is the stored one of the load that
    resolves last. If the load for [keyA] resolves first the provider ends
    with what is stored under [keyB]; if the load for [keyB] resolves
    first it ends with what is stored under [keyA], although [keyB] is
    the active key. *)
Theorem identity_switch_last_load_wins st (keyA keyB : string)
    (csA csB : list Conversation) :
  pendingLoads st = [] →
  storageKey st ≠ Some keyA →
  keyA ≠ keyB →
  loaded_conversations (inr (storage st !! keyA)) = Some csA →
  loaded_conversations (inr (storage st !! keyB)) = Some csB →
  let switch :=
    [StorageKeyChanges (Some keyA); StorageKeyChanges (Some keyB)] in
  (∃ st', run (switch ++ [LoadResolves 0 true; LoadResolves 0 true]) st
            = Some st' ∧
          storageKey st' = Some keyB ∧ pendingLoads st' = [] ∧
          conversations st' = csB ∧ conversationsRef st' = csB) ∧
  (∃ st', run (switch ++ [LoadResolves 1 true; LoadResolves 0 true]) st
            = Some st' ∧
          storageKey st' = Some keyB ∧ pendingLoads st' = [] ∧
          conversations st' = csA ∧ conversationsRef st' = csA).
Proof.
  intros Hpend HkeyA Hne HA HB switch.
  set (stA := storageKey_changes (Some keyA) st).
  set (stB := storageKey_changes (Some keyB) stA).
  assert (stA = setPendingLoads [keyA]
                  (setIsLoading true
                     (clearSaveTimer (setStorageKey (Some keyA) st)))) as HstA.
  { unfold stA. rewrite storageKey_changes_to by done. by rewrite Hpend. }
  assert (stB = setPendingLoads [keyA; keyB]
                  (setIsLoading true
                     (clearSaveTimer (setStorageKey (Some keyB) stA)))) as HstB.
  { unfold stB. rewrite storageKey_changes_to.
    - by rewrite HstA.
    - rewrite HstA. simpl. congruence. }
  assert (storage stB = storage st) as Hsto by (by rewrite HstB, HstA).
  assert (pendingLoads stB = [keyA; keyB]) as Hp by (by rewrite HstB).
  assert (storageKey stB = Some keyB) as Hk by (by rewrite HstB).
  assert (run switch st = Some stB) as Hswitch by done.
  assert (∀ es, run (switch ++ es) st = run es stB) as Hrun.
  { intros es. unfold switch. done. }
  rewrite !Hrun. split.
  - set (st1 := setIsLoading false
                  (commit csA (setPendingLoads [keyB] stB))).
    assert (load_resolves 0 true stB = Some st1) as H1.
    { erewrite load_resolves_applies; [|by rewrite Hp|by rewrite Hsto].
      by rewrite Hp. }
    set (st2 := setIsLoading false (commit csB (setPendingLoads [] st1))).
    assert (load_resolves 0 true st1 = Some st2) as H2.
    { erewrite load_resolves_applies; [done|done|].
      by replace (storage st1) with (storage st). }
    exists st2. split.
    { change (load_resolves 0 true stB ≫= run [LoadResolves 0 true] = Some st2).
      rewrite H1. change (load_resolves 0 true st1 ≫= Some = Some st2).
      by rewrite H2. }
    done.
  - set (st1 := setIsLoading false
                  (commit csB (setPendingLoads [keyA] stB))).
    assert (load_resolves 1 true stB = Some st1) as H1.
    { erewrite load_resolves_applies; [|by rewrite Hp|by rewrite Hsto].
      by rewrite Hp. }
    set (st2 := setIsLoading false (commit csA (setPendingLoads [] st1))).
    assert (load_resolves 0 true st1 = Some st2) as H2.
    { erewrite load_resolves_applies; [done|done|].
      by replace (storage st1) with (storage st). }
    exists st2. split.
    { change (load_resolves 1 true stB ≫= run [LoadResolves 0 true] = Some st2).
      rewrite H1. change (load_resolves 0 true st1 ≫= Some = Some st2).
      by rewrite H2. }
    done.
Qed.

End ChatProperties.

(** ** Accounts *)

Section AuthProperties.
Context `{Platform}.

Lemma js_to_users_to_js (users : gmap string Auth.UserData) :
  Auth.js_to_users (Auth.users_to_js users) = Some users.
Proof.
  unfold Auth.users_to_js, Auth.js_to_users.
  rewrite mapM_fmap_Some; [simpl; by rewrite list_to_map_to_list|].
  by intros [name [p i]].
Qed.


End AuthProperties.

(** ** Splitting into lines *)

Section Lines.
Import JsString.

Lemma split_newline_nonempty (s : string) : split_newline s ≠ [].
Proof.
  destruct s as [|c s]; simpl; [done|].
  case_decide; [done|]. by destruct (split_newline s).
Qed.

(** Splitting a concatenation: the complete lines of the first part, then
    the split of its last segment continued by the second part. *)
Lemma split_newline_app (a b : string) :
  split_newline (a +:+ b) =
    removelast (split_newline a)
    ++ split_newline (List.last (split_newline a) "" +:+ b).
Proof.
  induction a as [|c a IH]; simpl; [done|].
  pose proof (split_newline_nonempty a) as Hne.
  destruct (split_newline a) as [|seg segs] eqn:Ha; [done|].
  case_decide as Hc.
  - by rewrite IH.
  - rewrite IH. destruct segs as [|seg2 segs]; simpl.
    + by rewrite decide_False by done.
    + done.
Qed.

Lemma split_newline_plain (s : string) :
  includes_newline s = false → split_newline s = [s].
Proof.
  induction s as [|c s IH]; simpl; [done|].
  case_decide; [done|]. intros Hs. by rewrite IH.
Qed.

Lemma last_segment_plain (s : string) :
  includes_newline (List.last (split_newline s) "") = false.
Proof.
  induction s as [|c s IH]; simpl; [done|].
  pose proof (split_newline_nonempty s) as Hne.
  destruct (split_newline s) as [|seg segs] eqn:Hs; [done|].
  case_decide as Hc; [done|].
  destruct segs as [|seg2 segs]; simpl in *; [|done].
  by rewrite decide_False by done.
Qed.

Lemma includes_newline_app (a b : string) :
  includes_newline (a +:+ b) = includes_newline a || includes_newline b.
Proof. induction a as [|c a IH]; simpl; [done|]. by case_decide. Qed.

(** the segments of a text that ends in a newline-free tail: the complete
    lines do not depend on the tail *)
Lemma lines_of_app_plain (a tail : string) :
  includes_newline tail = false →
  removelast (split_newline (a +:+ tail)) = removelast (split_newline a).
Proof.
  intros Htail. rewrite split_newline_app.
  rewrite (split_newline_plain (_ +:+ tail)).
  - rewrite removelast_app by done. simpl. by rewrite app_nil_r.
  - by rewrite includes_newline_app, last_segment_plain, Htail.
Qed.

Lemma split_newline_removelast_last (s : string) :
  split_newline s
  = removelast (split_newline s) ++ [List.last (split_newline s) ""].
Proof. apply app_removelast_last, split_newline_nonempty. Qed.

(** a line, its newline, and what follows *)
Lemma split_newline_line (line rest : string) :
  includes_newline line = false →
  split_newline (line +:+ String newline rest) = line :: split_newline rest.
Proof.
  induction line as [|c line IH]; simpl.
  - done.
  - case_decide; [done|]. intros Hline. by rewrite IH.
Qed.

End Lines.

(** ** The chat screen *)

Section ScreenProperties.
Context `{Platform}.
Import JsString ChatScreen.

Implicit Types (f : Frame) (ending : StreamEnd).

Ltac hs_unfold :=
  unfold mbind, HS_bind, bind, mret, HS_ret, ret, throw, try_catch,
    try_finally, emit, in_world, get_fullContent, set_fullContent,
    get_assistantAdded, set_assistantAdded in *.

Lemma for_each_app {A} (body : A → HS unit) (l1 l2 : list A) f :
  for_each body (l1 ++ l2) f = (for_each body l1;; for_each body l2) f.
Proof.
  revert f. induction l1 as [|a l1 IH]; intros f; simpl; [done|].
  hs_unfold. destruct (body a f) as [[e|[]] f1]; [done|]. apply IH.
Qed.

Lemma bind_assoc_unit (m1 m2 m3 : HS unit) f :
  ((m1;; m2);; m3) f = (m1;; (m2;; m3)) f.
Proof. hs_unfold. destruct (m1 f) as [[e|[]] f1]; done. Qed.

Lemma bind_congr_unit (m k1 k2 : HS unit) f :
  (∀ f', k1 f' = k2 f') → (m;; k1) f = (m;; k2) f.
Proof. intros Hk. hs_unfold. destruct (m f) as [[e|[]] f1]; [done|apply Hk]. Qed.

(** The loop processes the complete lines of everything received, in
    order, and then ends as the stream ends. *)
Lemma read_loop_lines (buffer : string) (chunks : list string) ending f :
  includes_newline buffer = false →
  read_loop buffer chunks ending f
  = (for_each process_line (lines_of (buffer +:+ concat chunks));;
     end_of_stream ending) f.
Proof.
  revert buffer f. induction chunks as [|value rest IH]; intros buffer f Hb.
  - simpl. rewrite string_app_nil_r. unfold lines_of.
    rewrite split_newline_plain by done. done.
  - simpl.
    rewrite (bind_congr_unit _ _
      (for_each process_line
         (lines_of (carry_over (split_newline (buffer +:+ value))
                    +:+ concat rest));;
       end_of_stream ending)).
    2:{ intros f'. apply IH, last_segment_plain. }
    rewrite <-bind_assoc_unit.
    rewrite <-string_app_assoc. unfold lines_of at 2.
    rewrite (split_newline_app (buffer +:+ value)).
    rewrite removelast_app by apply split_newline_nonempty.
    hs_unfold. rewrite for_each_app. done.
Qed.


(** *** One line *)

Lemma process_line_data (payload : string) f :
  process_line ("data: " +:+ payload) f
  = if decide (payload = "[DONE]") then (inr tt, f)
    else try_catch (handle_payload payload)
           (λ e, match e with SyntaxError => ret tt | _ => throw e end) f.
Proof. unfold process_line. simpl. by case_decide. Qed.

(** a line that does not parse is skipped: no exception, no effect *)
Lemma process_line_malformed (payload : string) f :
  JSON_parse payload = None →
  process_line ("data: " +:+ payload) f = (inr tt, f).
Proof.
  intros Hparse. rewrite process_line_data. case_decide; [done|].
  unfold handle_payload, json_parse. rewrite Hparse. by hs_unfold.
Qed.

(** [handle_payload] raises [SyntaxError] only when the text does not parse *)
Lemma handle_payload_SyntaxError (payload : string) f f' :
  handle_payload payload f = (inl SyntaxError, f') →
  JSON_parse payload = None.
Proof.
  unfold handle_payload, json_parse.
  destruct (JSON_parse payload) as [v|]; [|done].
  unfold on_content. hs_unfold. unfold lift, get_prop.
  destruct v as [|b|n|s|items|fields]; simpl; try done.
  hs_unfold.
  destruct (assoc "content" fields) as [c|], (assoc "error" fields) as [e|];
    simpl; repeat (case_match; simplify_eq/=); done.
Qed.

(** every other exception of the inner [try] leaves the line loop *)
Lemma process_line_propagates (payload : string) (e : Exn) f f' :
  payload ≠ "[DONE]" →
  handle_payload payload f = (inl e, f') → e ≠ SyntaxError →
  process_line ("data: " +:+ payload) f = (inl e, f').
Proof.
  intros Hdone Hh He. rewrite process_line_data, decide_False by done.
  hs_unfold. rewrite Hh. by destruct e.
Qed.

Lemma on_content_run (c : JsValue Number) f :
  on_content c f = (inr tt, after_content (to_string c) f).
Proof.
  unfold on_content, after_content. hs_unfold. simpl.
  destruct (assistantAdded f); simpl; [done|].
  by rewrite <-app_assoc.
Qed.

Lemma handle_payload_run (payload : string) (v : JsValue Number) f :
  JSON_parse payload = Some v →
  handle_payload payload f =
    match get_prop v "content" with
    | inl e => (inl e, f)
    | inr c =>
        let f1 := match c with
                  | Some x => if truthy c then after_content (to_string x) f
                              else f
                  | None => f
                  end in
        match get_prop v "error" with
        | inl e => (inl e, f1)
        | inr (Some x) =>
            if truthy (Some x) then (inl (Error (to_string x)), f1)
            else (inr tt, f1)
        | inr None => (inr tt, f1)
        end
    end.
Proof.
  intros Hparse. unfold handle_payload, json_parse. rewrite Hparse.
  unfold lift. hs_unfold.
  destruct (get_prop v "content") as [e|c]; [done|].
  destruct c as [x|].
  - destruct (truthy (Some x)).
    + rewrite on_content_run.
      destruct (get_prop v "error") as [e|[y|]]; [done| |done].
      by destruct (truthy (Some y)).
    + destruct (get_prop v "error") as [e|[y|]]; [done| |done].
      by destruct (truthy (Some y)).
  - destruct (get_prop v "error") as [e|[y|]]; [done| |done].
    by destruct (truthy (Some y)).
Qed.

(** a delta [{"content": s}] with a non-empty [s] *)
Lemma process_line_content (payload s : string) f :
  payload ≠ "[DONE]" →
  JSON_parse payload = Some (JObj [("content", JStr s)]) → s ≠ "" →
  process_line ("data: " +:+ payload) f = (inr tt, after_content s f).
Proof.
  intros Hdone Hparse Hs. rewrite process_line_data, decide_False by done.
  unfold try_catch. rewrite (handle_payload_run _ _ _ Hparse). simpl.
  by rewrite bool_decide_eq_false_2 by done.
Qed.

Lemma for_each_cons_ok {A} (body : A → HS unit) (a : A) (l : list A) f f1 :
  body a f = (inr tt, f1) → for_each body (a :: l) f = for_each body l f1.
Proof. intros Ha. simpl. hs_unfold. by rewrite Ha. Qed.

Lemma for_each_cons_throw {A} (body : A → HS unit) (a : A) (l : list A)
    (e : Exn) f f1 :
  body a f = (inl e, f1) → for_each body (a :: l) f = (inl e, f1).
Proof. intros Ha. simpl. hs_unfold. by rewrite Ha. Qed.

Lemma for_each_app_ok {A} (body : A → HS unit) (l1 l2 : list A) f f1 :
  for_each body l1 f = (inr tt, f1) →
  for_each body (l1 ++ l2) f = for_each body l2 f1.
Proof. intros H1. rewrite for_each_app. hs_unfold. by rewrite H1. Qed.

(** C7. In a stream whose text has the line [data: payload] after the
    lines [before] (which ran without exception, leaving [f1]): when the
    payload is not JSON the line is skipped without any effect and the
    loop goes on with the lines after it, so a valid delta that follows is
    observed and applied; when handling the payload raises anything but a
    syntax error, that exception ends the loop at once, and this is what
    an [{error}] frame and a [null] payload do. *)
Theorem malformed_skipped_error_aborts (payload : string)
    (before after chunks : list string) ending f f1 :
  payload ≠ "[DONE]" →
  lines_of (concat chunks) = before ++ ("data: " +:+ payload) :: after →
  for_each process_line before f = (inr tt, f1) →
  (JSON_parse payload = None →
     process_line ("data: " +:+ payload) f1 = (inr tt, f1) ∧
     read_loop "" chunks ending f
     = (for_each process_line after;; end_of_stream ending) f1 ∧
     ∀ good s,
       after = ["data: " +:+ good] → good ≠ "[DONE]" →
       JSON_parse good = Some (JObj [("content", JStr s)]) → s ≠ "" →
       read_loop "" chunks Done f = (inr tt, after_content s f1)) ∧
  (∀ e f2, handle_payload payload f1 = (inl e, f2) → e ≠ SyntaxError →
     read_loop "" chunks ending f = (inl e, f2)) ∧
  (∀ v err, JSON_parse payload = Some v →
     get_prop v "error" = inr (Some err) → truthy (Some err) = true →
     ∃ f2, read_loop "" chunks ending f = (inl (Error (to_string err)), f2)) ∧
  (JSON_parse payload = Some JNull →
     read_loop "" chunks ending f = (inl TypeError, f1)).
Proof.
  intros Hdone Hlines Hbefore.
  assert (∀ ending', read_loop "" chunks ending' f
          = (for_each process_line (("data: " +:+ payload) :: after);;
             end_of_stream ending') f1) as Hloop.
  { intros ending'. rewrite read_loop_lines by done. simpl. rewrite Hlines.
    hs_unfold. by rewrite (for_each_app_ok _ _ _ _ _ Hbefore). }
  assert (∀ e f2, handle_payload payload f1 = (inl e, f2) → e ≠ SyntaxError →
            read_loop "" chunks ending f = (inl e, f2)) as Hthrow.
  { intros e f2 Hh He. rewrite Hloop. hs_unfold.
    by rewrite (for_each_cons_throw _ _ _ e f1 f2)
      by (by apply process_line_propagates). }
  split; [|split; [done|split]].
  - intros Hparse.
    pose proof (process_line_malformed payload f1 Hparse) as Hskip.
    split; [done|]. split.
    + rewrite Hloop. hs_unfold. by rewrite (for_each_cons_ok _ _ _ _ _ Hskip).
    + intros good s -> Hgood Hpg Hs. rewrite Hloop. hs_unfold.
      rewrite (for_each_cons_ok _ _ _ _ _ Hskip).
      rewrite (for_each_cons_ok _ _ _ _ (after_content s f1)); [done|].
      by apply process_line_content.
  - intros v err Hparse Herr Htruthy.
    pose proof (handle_payload_run payload v f1 Hparse) as Hrun.
    rewrite Herr, Htruthy in Hrun.
    destruct (get_prop v "content") as [e|c] eqn:Hc.
    { destruct v; simplify_eq/=. }
    simpl in Hrun. eexists. eapply Hthrow; [exact Hrun|done].
  - intros Hparse. apply Hthrow; [|done].
    by rewrite (handle_payload_run _ _ _ Hparse).
Qed.

(** *** What the line loop can do to a frame *)

Lemma after_content_fields (s : string) f :
  fullContent (after_content s f) = fullContent f +:+ s ∧
  assistantAdded (after_content s f) = true ∧
  observations (actions (after_content s f))
  = observations (actions f) ++ [fullContent f +:+ s] ∧
  persisted_assistant (actions (after_content s f))
  = persisted_assistant (actions f).
Proof.
  unfold after_content, observations, persisted_assistant.
  destruct (assistantAdded f); simpl; rewrite !omap_app; simpl.
  - by rewrite app_nil_r.
  - by rewrite app_nil_r.
Qed.

Lemma handle_payload_cases (payload : string) f (r : Exn + unit) f' :
  handle_payload payload f = (r, f') → f' = f ∨ ∃ s, f' = after_content s f.
Proof.
  destruct (JSON_parse payload) as [v|] eqn:Hparse.
  - rewrite (handle_payload_run _ _ _ Hparse).
    destruct (get_prop v "content") as [e|c]; [intros ?; simplify_eq; by left|].
    cbv zeta.
    destruct c as [x|]; [destruct (truthy (Some x))|];
      (destruct (get_prop v "error") as [e|[y|]];
       [|destruct (truthy (Some y))|]); intros ?; simplify_eq; eauto.

  - unfold handle_payload, json_parse. rewrite Hparse. hs_unfold.
    intros ?; simplify_eq; by left.
Qed.

Lemma process_line_cases (l : string) f (r : Exn + unit) f' :
  process_line l f = (r, f') → f' = f ∨ ∃ s, f' = after_content s f.
Proof.
  unfold process_line. hs_unfold.
  case_match; [intros ?; simplify_eq; by left|].
  case_decide; [intros ?; simplify_eq; by left|].
  destruct (handle_payload (slice_from 6 l) f) as [r0 f1] eqn:Hh.
  apply handle_payload_cases in Hh.
  destruct r0 as [e|[]]; [destruct e|]; intros ?; by simplify_eq.
Qed.

(** a property of frames that a content delta keeps is kept by the loop *)
Lemma for_each_preserves (P : Frame → Prop) (ls : list string) :
  (∀ s f, P f → P (after_content s f)) →
  ∀ f (r : Exn + unit) f', for_each process_line ls f = (r, f') → P f → P f'.
Proof.
  intros HP. induction ls as [|l ls IH]; intros f r f'; simpl; hs_unfold.
  { intros ? ?; by simplify_eq. }
  destruct (process_line l f) as [[e|[]] f1] eqn:Hl.
  - intros ? Hf. simplify_eq.
    destruct (process_line_cases _ _ _ _ Hl) as [->|[s ->]]; auto.
  - intros Hrest Hf. apply (IH _ _ _ Hrest).
    destruct (process_line_cases _ _ _ _ Hl) as [->|[s ->]]; auto.
Qed.

Lemma read_loop_preserves (P : Frame → Prop) (chunks : list string) ending :
  (∀ s f, P f → P (after_content s f)) →
  ∀ buffer f (r : Exn + unit) f',
    read_loop buffer chunks ending f = (r, f') → P f → P f'.
Proof.
  intros HP. induction chunks as [|value rest IH]; intros buffer f r f'; simpl.
  { unfold end_of_stream. destruct ending; hs_unfold; intros ? ?;
      by simplify_eq. }
  hs_unfold.
  destruct (for_each process_line _ f) as [[e|[]] f1] eqn:Hlines.
  - intros ? Hf. simplify_eq. by eapply for_each_preserves.
  - intros Hrest Hf. eapply IH; [done|]. by eapply for_each_preserves.
Qed.

(** *** Failure *)

Lemma persisted_assistant_app (l1 l2 : list Action) :
  persisted_assistant (l1 ++ l2)
  = persisted_assistant l1 ++ persisted_assistant l2.
Proof. apply omap_app. Qed.

Lemma observations_app (l1 l2 : list Action) :
  observations (l1 ++ l2) = observations l1 ++ observations l2.
Proof. apply omap_app. Qed.

(** when the outer [try] block fails, it has handed no assistant message
    to the store *)
Lemma request_and_read_failure (id text : string)
    (cur new : list Message) (response : FetchResult) f (e : Exn) f1 :
  request_and_read id text cur new response f = (inl e, f1) →
  persisted_assistant (actions f1) = persisted_assistant (actions f).
Proof.
  unfold request_and_read. hs_unfold.
  destruct response as [|ok body]; simpl.
  { intros ?; simplify_eq. simpl.
    by rewrite persisted_assistant_app, app_nil_r. }
  destruct ok; simpl.
  2:{ intros ?; simplify_eq. simpl.
      by rewrite persisted_assistant_app, app_nil_r. }
  destruct body as [[chunks ending]|]; simpl.
  2:{ intros ?; simplify_eq. simpl.
      by rewrite persisted_assistant_app, app_nil_r. }
  destruct (read_loop "" chunks ending _) as [[e'|[]] f2] eqn:Hloop.
  - intros ?; simplify_eq.
    apply (read_loop_preserves
             (λ g, persisted_assistant (actions g)
                   = persisted_assistant (actions f))) in Hloop; [done| |].
    + intros s g Hg. by rewrite (proj2 (proj2 (proj2 (after_content_fields s g)))).
    + simpl. by rewrite persisted_assistant_app, app_nil_r.
  - case_decide; [done|]. simpl. by case_decide.
Qed.

Lemma begin_send_run (id text : string) (messages : list Message) (w : World) :
  ∃ newMessages fs,
    begin_send id text messages (entry w) = (inr newMessages, fs) ∧
    fullContent fs = "" ∧ assistantAdded fs = false ∧
    persisted_assistant (actions fs) = [] ∧ observations (actions fs) = [] ∧
    screen_messages (actions fs) messages = newMessages ∧
    ∃ u, newMessages = messages ++ [u] ∧ role u = User ∧ content u = text.
Proof.
  unfold begin_send. hs_unfold. simpl. eexists _, _.
  repeat (split; [reflexivity|]). eexists. by split.
Qed.


(** *** A successful stream *)

Lemma screen_messages_app (l1 l2 : list Action) (init : list Message) :
  screen_messages (l1 ++ l2) init
  = screen_messages l2 (screen_messages l1 init).
Proof. apply foldl_app. Qed.

Lemma after_content_screen (s : string) f (init : list Message) :
  screen_messages (actions (after_content s f)) init
  = if assistantAdded f
    then replace_last_content (screen_messages (actions f) init)
           (fullContent f +:+ s)
    else screen_messages (actions f) init
         ++ [assistant_message (generateMessageId (env f)).1
               (fullContent f +:+ s)
               (date_now (generateMessageId (env f)).2).1].
Proof.
  unfold after_content.
  destruct (assistantAdded f); simpl; by rewrite screen_messages_app.
Qed.

(** the three lines of the example run, whatever the chunking *)
Lemma example_stream_run (chunks : list string) f :
  JSON_parse (content_frame "Hi") = Some (JObj [("content", JStr "Hi")]) →
  JSON_parse (content_frame "Hi there")
    = Some (JObj [("content", JStr "Hi there")]) →
  concat chunks
    = line ("data: " +:+ content_frame "Hi")
      +:+ line ("data: " +:+ content_frame "Hi there")
      +:+ line "data: [DONE]" →
  read_loop "" chunks Done f
  = (inr tt, after_content "Hi there" (after_content "Hi" f)).
Proof.
  intros Hp1 Hp2 Hconcat. rewrite read_loop_lines by done. simpl.
  rewrite Hconcat.
  assert (lines_of
            (line ("data: " +:+ content_frame "Hi")
             +:+ line ("data: " +:+ content_frame "Hi there")
             +:+ line "data: [DONE]")
          = ["data: " +:+ content_frame "Hi";
             "data: " +:+ content_frame "Hi there";
             "data: " +:+ "[DONE]"]) as -> by (by vm_compute).
  unfold mbind, HS_bind, bind.
  rewrite (for_each_cons_ok _ _ _ _ (after_content "Hi" f)).
  2:{ by apply process_line_content. }
  rewrite (for_each_cons_ok _ _ _ _
             (after_content "Hi there" (after_content "Hi" f))).
  2:{ by apply process_line_content. }
  rewrite (for_each_cons_ok _ _ _ _
             (after_content "Hi there" (after_content "Hi" f))).
  2:{ rewrite process_line_data. by rewrite decide_True by done. }
  done.
Qed.

Lemma request_and_read_success (id text : string) (cur new : list Message)
    (chunks : list string) f g :
  read_loop "" chunks Done
    (emit (Fetch (map (λ m, (role m, content m)) new)) f).2 = (inr tt, g) →
  fullContent g ≠ "" →
  ∃ g',
    request_and_read id text cur new (Response true (Some (chunks, Done))) f
      = (inr tt, g') ∧
    actions g'
    = actions g
      ++ [CallAddMessage id
            (assistant_message (generateMessageId (env g)).1
               (fullContent g) (date_now (generateMessageId (env g)).2).1)]
      ++ (if decide (length cur = 0)%nat
          then [CallUpdateConversationTitle id (title_of text)] else []).
Proof.
  intros Hloop Hfull. unfold request_and_read.
  unfold mbind, HS_bind, bind. unfold emit at 1. simpl.
  unfold emit in Hloop. simpl in Hloop. rewrite Hloop.
  hs_unfold. rewrite decide_False by done. simpl.
  case_decide; simpl; eexists; (split; [reflexivity|]); simpl.
  - by rewrite <-app_assoc.
  - done.
Qed.

(** C1 (as the code has it). For a response whose text, however it is
    split into chunks, consists of the lines [data: ] with the content
    delta "Hi", [data: ] with the content delta "Hi there" and
    [data: [DONE]], the run shows two contents in the assistant bubble,
    "Hi" and then "HiHi there", ends with one assistant bubble after the
    user's message whose content is "HiHi there", and hands exactly one
    assistant message to [addMessage], with content "HiHi there". In
    general a delta's content is appended to the text accumulated so far,
    and the accumulated text replaces the content of the bubble. *)
Theorem handleSend_accumulates_deltas (id inputText : string)
    (messages : list Message) (chunks : list string) (w : World) :
  trim inputText ≠ "" →
  JSON_parse (content_frame "Hi") = Some (JObj [("content", JStr "Hi")]) →
  JSON_parse (content_frame "Hi there")
    = Some (JObj [("content", JStr "Hi there")]) →
  concat chunks
    = line ("data: " +:+ content_frame "Hi")
      +:+ line ("data: " +:+ content_frame "Hi there")
      +:+ line "data: [DONE]" →
  let log :=
    (run_handleSend id inputText messages false
       (Response true (Some (chunks, Done))) w).1 in
  observations log = ["Hi"; "HiHi there"] ∧
  map content (persisted_assistant log) = ["HiHi there"] ∧
  (∃ u a, screen_messages log messages = messages ++ [u; a] ∧
          role u = User ∧ content u = trim inputText ∧
          role a = Assistant ∧ content a = "HiHi there") ∧
  (∀ payload s f,
     payload ≠ "[DONE]" →
     JSON_parse payload = Some (JObj [("content", JStr s)]) → s ≠ "" →
     ∃ f', process_line ("data: " +:+ payload) f = (inr tt, f') ∧
           fullContent f' = fullContent f +:+ s ∧
           observations (actions f')
           = observations (actions f) ++ [fullContent f +:+ s] ∧
           (assistantAdded f = true →
            actions f'
            = actions f
              ++ [SetMessages (ReplaceLastContent (fullContent f +:+ s))])).
Proof.
  intros Htext Hp1 Hp2 Hconcat log.
  destruct (begin_send_run id (trim inputText) messages w)
    as (nm & fs & Hbegin & Hfull & Hadded & Hpers & Hobs & Hscreen
        & u & Hnm & Hu & Hcu).
  set (f0 := (emit (Fetch (map (λ m, (role m, content m)) nm)) fs).2).
  set (g1 := after_content "Hi" f0).
  set (g2 := after_content "Hi there" g1).
  assert (read_loop "" chunks Done f0 = (inr tt, g2)) as Hloop
    by (by apply example_stream_run).
  destruct (after_content_fields "Hi" f0) as (Hf1 & Ha1 & Ho1 & Hq1).
  destruct (after_content_fields "Hi there" g1) as (Hf2 & Ha2 & Ho2 & Hq2).
  fold g1 in Hf1, Ha1, Ho1, Hq1. fold g2 in Hf2, Ha2, Ho2, Hq2.
  assert (fullContent f0 = "") as Hf0 by done.
  assert (assistantAdded f0 = false) as Ha0 by done.
  assert (observations (actions f0) = []) as Ho0.
  { unfold f0. simpl. by rewrite observations_app, Hobs. }
  assert (persisted_assistant (actions f0) = []) as Hq0.
  { unfold f0. simpl. by rewrite persisted_assistant_app, Hpers. }
  assert (screen_messages (actions f0) messages = nm) as Hs0.
  { unfold f0. simpl. by rewrite screen_messages_app, Hscreen. }
  rewrite Hf0 in Hf1, Ho1. change ("" +:+ "Hi") with "Hi" in Hf1, Ho1.
  rewrite Hf1 in Hf2, Ho2.
  change ("Hi" +:+ "Hi there") with "HiHi there" in Hf2, Ho2.
  destruct (request_and_read_success id (trim inputText) messages nm chunks
              fs g2 Hloop) as (g' & Hrun & Hact).
  { by rewrite Hf2. }
  assert (log = actions g' ++ [SetIsStreaming false; SetShowTyping false])
    as Hlog.
  { subst log. unfold run_handleSend, handleSend.
    rewrite decide_False by done.
    unfold mbind, HS_bind, bind. rewrite Hbegin.
    unfold try_finally, try_catch. rewrite Hrun.
    unfold finish_send. hs_unfold. simpl. by rewrite <-app_assoc. }
  split; [|split; [|split]].
  - rewrite Hlog, Hact, !observations_app, Ho2, Ho1, Ho0. simpl.
    by case_decide.
  - rewrite Hlog, Hact, !persisted_assistant_app, Hq2, Hq1, Hq0, Hf2. simpl.
    by case_decide.
  - exists u.
    eexists (assistant_message _ "HiHi there" _).
    split; [|split; [exact Hu|split; [exact Hcu|split; reflexivity]]].
    rewrite Hlog, Hact, !screen_messages_app.
    unfold g2. rewrite after_content_screen, Ha1.
    unfold g1. rewrite after_content_screen, Ha0, Hs0, Hf0.
    fold g1. rewrite Hf1, Hnm. simpl.
    assert (∀ (l : list Message) m s,
              replace_last_content (l ++ [m]) s = l ++ [with_content m s])
      as Hrep.
    { intros l m s. unfold replace_last_content. rewrite length_app. simpl.
      replace (length l + 1 - 1)%nat with (length l + 0)%nat by lia.
      rewrite lookup_app_r by lia.
      replace (length l + 0 - length l)%nat with 0%nat by lia. simpl.
      by rewrite insert_app_r. }
    rewrite Hrep. unfold with_content, assistant_message. simpl.
    rewrite <-app_assoc. simpl.
    by case_decide.
  - intros payload s f Hdone Hparse Hs.
    exists (after_content s f). split; [by apply process_line_content|].
    destruct (after_content_fields s f) as (Hfc & _ & Ho & _).
    split; [done|]. split; [done|].
    intros Hyes. unfold after_content. by rewrite Hyes.
Qed.

End ScreenProperties.

(** ** More on accounts *)

Section AccountProperties.
Context `{Platform}.

(** the directory that a store holds reads back *)
Lemma getUsers_stored (st : Auth.AuthState) (users : gmap string Auth.UserData) :
  Auth.storage st !! Auth.USERS_KEY
    = Some (JSON_stringify (Auth.users_to_js users)) →
  JSON_parse "" = None →
  JSON_parse (JSON_stringify (Auth.users_to_js users))
    = Some (Auth.users_to_js users) →
  Auth.getUsers true st = Some users.
Proof.
  intros Hstored Hempty Hround. unfold Auth.getUsers. rewrite Hstored.
  case_decide as Htext; [by rewrite Htext, Hempty in Hround|].
  by rewrite Hround, js_to_users_to_js.
Qed.

(** what a successful [signup] leaves *)
Lemma signup_success_state (name pass : string) (st st1 : Auth.AuthState)
    (read_ok w1 w2 : bool) (users0 : gmap string Auth.UserData) :
  Auth.getUsers read_ok st = Some users0 →
  Auth.signup name pass read_ok w1 w2 st = Some (inr Auth.succeeded, st1) →
  Auth.normalize name ≠ "" ∧ pass ≠ "" ∧
  (3 ≤ String.length (Auth.normalize name))%nat ∧
  (4 ≤ String.length pass)%nat ∧
  Auth.users_get users0 (Auth.normalize name) = Auth.Missing ∧
  Auth.storage st1 !! Auth.USERS_KEY
    = Some (JSON_stringify
              (Auth.users_to_js
                 (<[Auth.normalize name :=
                      {| Auth.password := pass;
                         Auth.id := (timestamp_id (Auth.world st)).1 |}]>
                    users0))) ∧
  Auth.user st1
    = Some {| Auth.user_id := (timestamp_id (Auth.world st)).1;
              Auth.username := Auth.normalize name |}.
Proof.
  intros Husers Hsignup. unfold Auth.signup in Hsignup.
  rewrite Husers in Hsignup.
  destruct (timestamp_id (Auth.world st)) as [i w'].
  destruct (decide (Auth.normalize name = "" ∨ pass = "")) as [|Hfilled];
    [by simplify_eq|].
  destruct (decide (String.length (Auth.normalize name) < 3)%nat);
    [by simplify_eq|].
  destruct (decide (String.length pass < 4)%nat); [by simplify_eq|].
  simpl in Hsignup.
  destruct (Auth.users_get users0 (Auth.normalize name)) eqn:Hget;
    [by simplify_eq..|].
  destruct w1; [|by simplify_eq]. simpl in Hsignup.
  destruct w2; [|by simplify_eq]. simpl in Hsignup.
  injection Hsignup as <-. simpl.
  rewrite lookup_insert_ne by done. rewrite lookup_insert_eq.
  repeat split; try done; try lia; intros Heq; apply Hfilled; tauto.
Qed.

(** X1. A second [signup] under a name that normalises like one that has
    just been signed up fails, whatever its password, and changes nothing:
    not the stored directory, not the session, not the signed-in user. With
    a password of four characters or more its error is the duplicate
    message. *)
Theorem signup_duplicate_rejected (name1 name2 pass1 pass2 : string)
    (st st1 : Auth.AuthState) (read_ok w1 w2 w1' w2' : bool)
    (users0 : gmap string Auth.UserData) :
  Auth.normalize name1 = Auth.normalize name2 →
  Auth.getUsers read_ok st = Some users0 →
  Auth.signup name1 pass1 read_ok w1 w2 st = Some (inr Auth.succeeded, st1) →
  let users1 :=
    <[Auth.normalize name1 :=
        {| Auth.password := pass1;
           Auth.id := (timestamp_id (Auth.world st)).1 |}]> users0 in
  JSON_parse "" = None →
  JSON_parse (JSON_stringify (Auth.users_to_js users1))
    = Some (Auth.users_to_js users1) →
  ∃ r, Auth.signup name2 pass2 true w1' w2' st1 = Some (inr r, st1) ∧
       Auth.success r = false ∧
       ((4 ≤ String.length pass2)%nat →
        r = Auth.failure "Username already exists").
Proof.
  intros Hnorm Husers Hsignup users1 Hempty Hround.
  destruct (signup_success_state _ _ _ _ _ _ _ _ Husers Hsignup)
    as (Hn & _ & Hlen & _ & _ & Hstored & _).
  pose proof (getUsers_stored st1 users1 Hstored Hempty Hround) as Hget.
  unfold Auth.signup. rewrite <-Hnorm, Hget.
  destruct (decide (Auth.normalize name1 = "" ∨ pass2 = "")) as [[|Hp]|_].
  { done. }
  { eexists. split; [done|]. split; [done|]. subst pass2. simpl. lia. }
  rewrite decide_False by lia.
  destruct (decide (String.length pass2 < 4)%nat).
  { eexists. split; [done|]. split; [done|]. lia. }
  simpl. unfold Auth.users_get, users1. rewrite lookup_insert_eq.
  eexists. by split.
Qed.

(** X2. A [login] or [signup] that returns a failure result has changed
    nothing: the provider's state, the store and the process environment are
    as before the call. *)
Theorem auth_failure_changes_nothing (name pass : string)
    (st st' : Auth.AuthState) (r : Auth.Result) (read_ok w1 w2 : bool) :
  Auth.success r = false →
  (Auth.login name pass read_ok w1 st = Some (inr r, st') → st' = st) ∧
  (Auth.signup name pass read_ok w1 w2 st = Some (inr r, st') → st' = st).
Proof.
  intros Hr. split.
  - unfold Auth.login. case_decide; [by intros ?; simplify_eq|].
    destruct (Auth.getUsers read_ok st) as [users|]; [|done]. simpl.
    destruct (Auth.users_get users _) as [d| |]; try (by intros ?; simplify_eq).
    case_decide; [by intros ?; simplify_eq|].
    destruct w1; simpl; intros ?; by simplify_eq.
  - unfold Auth.signup. case_decide; [by intros ?; simplify_eq|].
    case_decide; [by intros ?; simplify_eq|].
    case_decide; [by intros ?; simplify_eq|].
    destruct (Auth.getUsers read_ok st) as [users|]; [|done]. simpl.
    destruct (Auth.users_get users _) as [d| |]; try (by intros ?; simplify_eq).
    destruct (timestamp_id (Auth.world st)) as [i w'].
    destruct w1; simpl; [|by intros ?; simplify_eq].
    destruct w2; simpl; intros ?; by simplify_eq.
Qed.

(** what a successful [login] has found and leaves *)
Lemma login_success_state (name pass : string) (st st' : Auth.AuthState)
    (read_ok w1 : bool) (users : gmap string Auth.UserData) :
  Auth.getUsers read_ok st = Some users →
  Auth.login name pass read_ok w1 st = Some (inr Auth.succeeded, st') →
  Auth.normalize name ≠ "" ∧ pass ≠ "" ∧
  ∃ d, users !! Auth.normalize name = Some d ∧ Auth.password d = pass ∧
       let u := {| Auth.user_id := Auth.id d;
                   Auth.username := Auth.normalize name |} in
       st' = {| Auth.user := Some u; Auth.isLoading := Auth.isLoading st;
                Auth.storage :=
                  <[Auth.CURRENT_USER_KEY := JSON_stringify (Auth.user_to_js u)]>
                    (Auth.storage st);
                Auth.world := Auth.world st |}.
Proof.
  intros Husers. unfold Auth.login. rewrite Husers. simpl.
  unfold Auth.users_get.
  destruct (decide (Auth.normalize name = "" ∨ pass = "")) as [|Hfilled].
  { intros Heq. injection Heq as Heq _. discriminate. }
  destruct (users !! Auth.normalize name) as [d|] eqn:Hd.
  - destruct (decide (Auth.password d ≠ pass)) as [Hne|Heq].
    { intros Heq. injection Heq as Heq _. discriminate. }
    apply dec_stable in Heq. destruct w1; simpl; [|done].
    intros Hst. injection Hst as <-.
    split; [tauto|]. split; [tauto|]. by exists d.
  - case_decide; intros Heq; injection Heq as Heq _; discriminate.
Qed.

(** X3. With the directory [users] in the store, [login] succeeds exactly
    when name and password are non-empty and the directory has the
    normalised name with that password; it then signs in the stored id under
    the normalised name, writes the session, and leaves the directory as it
    was. *)
Theorem login_succeeds_iff (name pass : string) (st : Auth.AuthState)
    (users : gmap string Auth.UserData) :
  Auth.getUsers true st = Some users →
  ((∃ st', Auth.login name pass true true st = Some (inr Auth.succeeded, st'))
   ↔ (Auth.normalize name ≠ "" ∧ pass ≠ "" ∧
      ∃ d, users !! Auth.normalize name = Some d ∧ Auth.password d = pass)) ∧
  (∀ st', Auth.login name pass true true st = Some (inr Auth.succeeded, st') →
     ∃ d, users !! Auth.normalize name = Some d ∧
          let u := {| Auth.user_id := Auth.id d;
                      Auth.username := Auth.normalize name |} in
          Auth.user st' = Some u ∧
          Auth.storage st' !! Auth.CURRENT_USER_KEY
            = Some (JSON_stringify (Auth.user_to_js u)) ∧
          Auth.storage st' !! Auth.USERS_KEY
            = Auth.storage st !! Auth.USERS_KEY).
Proof.
  intros Husers. split.
  - split.
    + intros [st' Hl].
      destruct (login_success_state _ _ _ _ _ _ _ Husers Hl)
        as (? & ? & d & ? & ? & _).
      split; [done|]. split; [done|]. by exists d.
    + intros (Hn & Hp & d & Hd & Hpw).
      unfold Auth.login. rewrite Husers. simpl. unfold Auth.users_get.
      rewrite decide_False by tauto. rewrite Hd.
      rewrite decide_False by (by intros ?). simpl. by eexists.
  - intros st' Hl.
    destruct (login_success_state _ _ _ _ _ _ _ Husers Hl)
      as (_ & _ & d & Hd & _ & ->).
    exists d. split; [done|]. simpl. rewrite lookup_insert_eq.
    split; [done|]. split; [done|]. by rewrite lookup_insert_ne.
Qed.

(** X4. The directory is a plain object, so the two all-lower-case member
    names of [Object.prototype] count as taken although nobody signed them
    up: [signup] under [constructor] or [__proto__] reports an existing
    username and [login] an incorrect password, and neither changes
    anything. *)
Theorem prototype_names_are_taken (name pass : string) (st : Auth.AuthState)
    (read_ok w1 w2 : bool) (users : gmap string Auth.UserData) :
  Auth.getUsers read_ok st = Some users →
  Auth.normalize name = "constructor" ∨ Auth.normalize name = "__proto__" →
  users !! Auth.normalize name = None →
  (4 ≤ String.length pass)%nat →
  Auth.signup name pass read_ok w1 w2 st
    = Some (inr (Auth.failure "Username already exists"), st) ∧
  Auth.login name pass read_ok w1 st
    = Some (inr (Auth.failure "Incorrect password"), st).
Proof.
  intros Husers Hname Hnone Hlen.
  assert (pass ≠ "") as Hpass by (intros ->; simpl in Hlen; lia).
  assert (Auth.normalize name ≠ "") as Hn by (by destruct Hname as [->| ->]).
  assert (3 ≤ String.length (Auth.normalize name))%nat as Hl.
  { destruct Hname as [->| ->]; simpl; lia. }
  assert (Auth.users_get users (Auth.normalize name) = Auth.Inherited) as Hget.
  { unfold Auth.users_get. rewrite Hnone. by rewrite decide_True. }
  split.
  - unfold Auth.signup. rewrite Husers. simpl. rewrite Hget.
    rewrite decide_False by tauto. rewrite decide_False by lia.
    by rewrite decide_False by lia.
  - unfold Auth.login. rewrite Husers. simpl. rewrite Hget.
    by rewrite decide_False by tauto.
Qed.

(** X5. The session survives a restart and ends with [logout]: after a
    successful [login], a provider mounted anew over the store finds the
    same user when [loadCurrentUser] has run; after [logout] the user is
    cleared, a provider mounted anew finds none, and the directory of
    accounts is still in the store. *)
Theorem session_round_trip (name pass : string) (st st1 : Auth.AuthState)
    (w : World) :
  Auth.login name pass true true st = Some (inr Auth.succeeded, st1) →
  JSON_parse "" = None →
  (∀ u, Auth.user st1 = Some u →
        JSON_parse (JSON_stringify (Auth.user_to_js u))
          = Some (Auth.user_to_js u)) →
  Auth.loadCurrentUser true (Auth.mounted (Auth.storage st1) w)
    = Some {| Auth.user := Auth.user st1; Auth.isLoading := false;
              Auth.storage := Auth.storage st1; Auth.world := w |} ∧
  is_Some (Auth.user st1) ∧
  ∃ st2, Auth.logout true st1 = inr st2 ∧ Auth.user st2 = None ∧
         Auth.storage st2 !! Auth.USERS_KEY
           = Auth.storage st1 !! Auth.USERS_KEY ∧
         Auth.loadCurrentUser true (Auth.mounted (Auth.storage st2) w)
           = Some {| Auth.user := None; Auth.isLoading := false;
                     Auth.storage := Auth.storage st2; Auth.world := w |}.
Proof.
  intros Hlogin Hempty Hround.
  assert (∃ u, Auth.user st1 = Some u ∧
               Auth.storage st1 !! Auth.CURRENT_USER_KEY
                 = Some (JSON_stringify (Auth.user_to_js u)))
    as (u & Hu & Hstored).
  { destruct (Auth.getUsers true st) as [users|] eqn:Husers.
    - destruct (login_success_state _ _ _ _ _ _ _ Husers Hlogin)
        as (_ & _ & d & _ & _ & ->).
      eexists. split; [done|]. simpl. by rewrite lookup_insert_eq.
    - unfold Auth.login in Hlogin. rewrite Husers in Hlogin.
      case_decide; [|done]. injection Hlogin as Heq _. discriminate. }
  specialize (Hround u Hu). split; [|split; [by rewrite Hu|]].
  - unfold Auth.loadCurrentUser. simpl. rewrite Hstored.
    case_decide as Htext; [by rewrite Htext, Hempty in Hround|].
    rewrite Hround, Hu. by destruct u.
  - eexists. split; [done|]. simpl. split; [done|].
    split; [by rewrite lookup_delete_ne|].
    unfold Auth.loadCurrentUser. simpl. by rewrite lookup_delete_eq.
Qed.

(** X6. When the second write of [signup], the one of the session, is
    rejected, the call rejects and nobody is signed in, but the account is
    already in the stored directory: the same signup tried again reports an
    existing username. *)
Theorem signup_partial_failure (name pass : string) (st : Auth.AuthState)
    (read_ok w1 w2 : bool) (users0 : gmap string Auth.UserData) :
  Auth.getUsers read_ok st = Some users0 →
  Auth.users_get users0 (Auth.normalize name) = Auth.Missing →
  (3 ≤ String.length (Auth.normalize name))%nat →
  (4 ≤ String.length pass)%nat →
  let users1 :=
    <[Auth.normalize name :=
        {| Auth.password := pass;
           Auth.id := (timestamp_id (Auth.world st)).1 |}]> users0 in
  JSON_parse "" = None →
  JSON_parse (JSON_stringify (Auth.users_to_js users1))
    = Some (Auth.users_to_js users1) →
  ∃ st',
    Auth.signup name pass read_ok true false st = Some (inl Rejected, st') ∧
    Auth.user st' = Auth.user st ∧
    Auth.storage st' !! Auth.CURRENT_USER_KEY
      = Auth.storage st !! Auth.CURRENT_USER_KEY ∧
    Auth.getUsers true st' = Some users1 ∧
    Auth.signup name pass true w1 w2 st'
      = Some (inr (Auth.failure "Username already exists"), st').
Proof.
  intros Husers Hmissing Hlen Hplen users1 Hempty Hround.
  assert (pass ≠ "") as Hpass by (intros ->; simpl in Hplen; lia).
  assert (Auth.normalize name ≠ "") as Hn.
  { intros Heq. rewrite Heq in Hlen. simpl in Hlen. lia. }
  subst users1.
  destruct (timestamp_id (Auth.world st)) as [i w'] eqn:Hid.
  simpl in Hround.
  set (users1 := <[Auth.normalize name :=
                     {| Auth.password := pass; Auth.id := i |}]> users0) in *.
  set (st' := {| Auth.user := Auth.user st;
                 Auth.isLoading := Auth.isLoading st;
                 Auth.storage :=
                   <[Auth.USERS_KEY := JSON_stringify (Auth.users_to_js users1)]>
                     (Auth.storage st);
                 Auth.world := w' |}).
  assert (Auth.getUsers true st' = Some users1) as Hget.
  { apply getUsers_stored; [|done|done]. apply lookup_insert_eq. }
  exists st'. split; [|split; [done|split; [by apply lookup_insert_ne|]]].
  - unfold Auth.signup. rewrite Husers, Hid. simpl. rewrite Hmissing.
    rewrite decide_False by tauto. rewrite decide_False by lia.
    by rewrite decide_False by lia.
  - split; [done|]. unfold Auth.signup. rewrite Hget.
    rewrite decide_False by tauto. rewrite decide_False by lia.
    rewrite decide_False by lia.
    unfold Auth.users_get, users1. simpl. by rewrite lookup_insert_eq.
Qed.

(** X7. The sign-in form ends every submission with [loading] off, and its
    error text is empty exactly when the attempt returned success: a failure
    result without a message and a rejected call both leave a non-empty
    text. *)
Theorem handleSubmit_outcome
    (attempt : Auth.AuthState → option ((Exn + Auth.Result) * Auth.AuthState))
    (st st' : Auth.AuthState) (err : string) (loading : bool) :
  Auth.handleSubmit attempt st = Some (err, loading, st') →
  loading = false ∧
  (err = "" ↔ ∃ r, attempt st = Some (inr r, st') ∧ Auth.success r = true).
Proof.
  unfold Auth.handleSubmit.
  destruct (attempt st) as [[[e|r] st0]|]; simpl; intros ?; simplify_eq.
  - split; [done|]. split; [done|]. by intros (? & ? & _).
  - split; [done|]. destruct (Auth.success r) eqn:Hs.
    + split; [by eauto|done].
    + split; [|intros (r' & ? & ?); simplify_eq; congruence].
      unfold Auth.error_or_default.
      destruct (Auth.error r) as [s|]; [|done]. by case_decide.
Qed.

End AccountProperties.

(** ** More about the conversation store *)

Section StoreProperties.
Context `{Platform}.

Lemma call_ref_mirrors (c : Call) st :
  conversationsRef (call c st) = conversations (call c st)
  ∨ (∃ ok, c = PersistNow ok).
Proof.
  destruct c as [t|id|cid m|cid s|cid t|ok]; unfold call;
    [left|left|left|left|left|right; by eexists].
  - unfold createConversation.
    destruct (timestamp_id (world st)) as [i w2]. by simpl.
  - done.
  - unfold addMessage.
    by destruct (addMessage_updater cid m (conversations st) (world st)).
  - unfold updateLastMessage.
    by destruct (updateLastMessage_updater cid s (conversations st) (world st)).
  - done.
Qed.

Lemma save_to_frame (key : string) (ok : bool) st :
  conversations (save_to key ok st) = conversations st ∧
  conversationsRef (save_to key ok st) = conversationsRef st ∧
  storageKey (save_to key ok st) = storageKey st ∧
  saveTimer (save_to key ok st) = saveTimer st.
Proof. unfold save_to. by destruct ok. Qed.

Lemma persistNow_frame (ok : bool) st :
  conversations (persistNow ok st) = conversations st ∧
  conversationsRef (persistNow ok st) = conversationsRef st ∧
  storageKey (persistNow ok st) = storageKey st.
Proof.
  unfold persistNow. destruct (storageKey st) as [key|] eqn:Hk; [|done].
  destruct (save_to_frame key ok (clearSaveTimer st)) as (-> & -> & -> & _).
  done.
Qed.

Lemma saveTimer_fires_frame (ok : bool) st :
  conversations (saveTimer_fires ok st) = conversations st ∧
  conversationsRef (saveTimer_fires ok st) = conversationsRef st ∧
  storageKey (saveTimer_fires ok st) = storageKey st ∧
  saveTimer (saveTimer_fires ok st) = false.
Proof.
  unfold saveTimer_fires. destruct (saveTimer st) eqn:Ht; [|done]. simpl.
  destruct (storageKey st) as [key|] eqn:Hkey; [|done].
  destruct (save_to_frame key ok (setTimer false st)) as (-> & -> & -> & ->).
  done.
Qed.

Lemma step_ref_mirrors (e : Event) st st' :
  conversationsRef st = conversations st →
  step e st = Some st' →
  conversationsRef st' = conversations st'.
Proof.
  intros Href. destruct e as [c|ok|k|i ok]; simpl.
  - intros ?; simplify_eq.
    destruct (call_ref_mirrors c st) as [|[ok ->]]; [done|]. simpl.
    by destruct (persistNow_frame ok st) as (-> & -> & _).
  - intros ?; simplify_eq.
    by destruct (saveTimer_fires_frame ok st) as (-> & -> & _).
  - intros ?; simplify_eq. unfold storageKey_changes.
    case_decide; [done|]. by destruct k.
  - unfold load_resolves. destruct (pendingLoads st !! i) as [key|].
    + destruct (loaded_conversations _) as [cs|]; simpl; [|done].
      by intros ?; simplify_eq.
    + by intros ?; simplify_eq.
Qed.

(** X8. The ref that the asynchronous code reads mirrors the state:
    whatever calls, timer firings, identity changes and load resolutions
    follow one another, once each of them has been rendered (its updater
    and the effect that copies the state into the ref have run)
    [conversationsRef.current] equals [conversations], so that
    [getConversation] looks up the list that is displayed. *)
Theorem ref_mirrors_state (es : list Event) st st' :
  conversationsRef st = conversations st →
  run es st = Some st' →
  conversationsRef st' = conversations st' ∧
  ∀ id, getConversation id st'
        = List.find (λ c, bool_decide (conv_id c = id)) (conversations st').
Proof.
  intros Href Hrun.
  assert (conversationsRef st' = conversations st') as Href'.
  { revert st Href Hrun. induction es as [|e es IH]; intros st Href; simpl.
    - by intros ?; simplify_eq.
    - destruct (step e st) as [st1|] eqn:Hstep; [|done]. simpl.
      apply IH. by eapply step_ref_mirrors. }
  split; [done|]. intros id. unfold getConversation. by rewrite Href'.
Qed.

Lemma call_storage (c : Call) st (k : string) :
  storageKey st ≠ Some k →
  storage (call c st) !! k = storage st !! k ∧
  storageKey (call c st) = storageKey st.
Proof.
  intros Hk. destruct c as [t|id|cid m|cid s|cid t|ok]; unfold call.
  - unfold createConversation.
    destruct (timestamp_id (world st)) as [i w2]. by simpl.
  - done.
  - unfold addMessage.
    by destruct (addMessage_updater cid m (conversations st) (world st)).
  - unfold updateLastMessage.
    by destruct (updateLastMessage_updater cid s (conversations st) (world st)).
  - done.
  - unfold persistNow. destruct (storageKey st) as [key|] eqn:Hkey; [|done].
    unfold save_to. destruct ok; [|done]. simpl.
    split; [|done]. apply lookup_insert_ne. congruence.
Qed.

Lemma step_storage (e : Event) st st' (k : string) :
  storageKey st ≠ Some k →
  e ≠ StorageKeyChanges (Some k) →
  step e st = Some st' →
  storage st' !! k = storage st !! k ∧ storageKey st' ≠ Some k.
Proof.
  intros Hk He. destruct e as [c|ok|k'|i ok]; simpl.
  - intros ?; simplify_eq. destruct (call_storage c st k Hk) as [-> ->].
    done.
  - intros ?; simplify_eq.
    destruct (saveTimer_fires_frame ok st) as (_ & _ & -> & _).
    split; [|done]. unfold saveTimer_fires.
    destruct (saveTimer st); [|done]. simpl.
    destruct (storageKey st) as [key|] eqn:Hkey; [|done].
    unfold save_to. destruct ok; [|done]. simpl.
    apply lookup_insert_ne. congruence.
  - intros ?; simplify_eq. unfold storageKey_changes.
    case_decide as Hsame; [done|].
    destruct k' as [key|]; simpl; [|done]. split; [done|]. congruence.
  - unfold load_resolves. destruct (pendingLoads st !! i) as [key|].
    + destruct (loaded_conversations _) as [cs|]; simpl; [|done].
      by intros ?; simplify_eq.
    + by intros ?; simplify_eq.
Qed.

(** X9. The provider writes under the active storage key only: through
    any sequence of calls, timer firings, identity changes and load
    resolutions, the entry of the store under a key that is not active at
    the start and is not activated on the way stays as it was; with no
    active key at the start and no activation on the way the whole store
    stays as it was. *)
Theorem writes_only_under_active_key (es : list Event) st st' :
  run es st = Some st' →
  (∀ k, storageKey st ≠ Some k →
        Forall (λ e, e ≠ StorageKeyChanges (Some k)) es →
        storage st' !! k = storage st !! k) ∧
  (storageKey st = None →
   Forall (λ e, ∀ k, e ≠ StorageKeyChanges (Some k)) es →
   storage st' = storage st).
Proof.
  intros Hrun.
  assert (∀ k, storageKey st ≠ Some k →
               Forall (λ e, e ≠ StorageKeyChanges (Some k)) es →
               storage st' !! k = storage st !! k) as Hkeys.
  { intros k. revert st Hrun. induction es as [|e es IH]; intros st; simpl.
    - by intros ?; simplify_eq.
    - destruct (step e st) as [st1|] eqn:Hstep; [|done]. simpl.
      intros Hrun Hk Hes. apply Forall_cons in Hes as [He Hes].
      destruct (step_storage e st st1 k Hk He Hstep) as [<- Hk1].
      by apply IH. }
  split; [done|]. intros Hnone Hes. apply map_eq. intros k.
  apply Hkeys; [by rewrite Hnone|].
  eapply Forall_impl; [done|]. intros e He. apply He.
Qed.


Lemma calls_snoc (cs : list Call) (c : Call) st :
  calls (cs ++ [c]) st = call c (calls cs st).
Proof. unfold calls. by rewrite foldl_app. Qed.

Lemma burst_frame (cs : list Call) st :
  Forall (λ c, schedules_save c = true) cs →
  storage (calls cs st) = storage st ∧
  storageKey (calls cs st) = storageKey st ∧
  (cs ≠ [] → saveTimer (calls cs st) = true).
Proof.
  induction cs as [|c cs IH] using rev_ind; intros Hcs; [done|].
  rewrite Forall_app, Forall_singleton in Hcs. destruct Hcs as [Hcs Hc].
  rewrite calls_snoc.
  destruct (schedules_save_call c (calls cs st) Hc) as (-> & -> & ->).
  by destruct (IH Hcs) as (-> & -> & _).
Qed.

(** X11. The debounce coalesces a burst: any number of
    [createConversation], [deleteConversation], [addMessage] and
    [updateConversationTitle] calls before the timer fires writes nothing;
    the one firing that follows writes the list as the last call left it,
    under the active key; a further firing, or a firing after
    [persistNow], changes nothing. *)
Theorem debounce_coalesces_burst (cs : list Call) st (key : string) :
  cs ≠ [] →
  Forall (λ c, schedules_save c = true) cs →
  storageKey st = Some key →
  let st1 := calls cs st in
  storage st1 = storage st ∧
  storage (saveTimer_fires true st1)
    = <[key := JSON_stringify (conversations_to_js (conversationsRef st1))]>
        (storage st) ∧
  (∀ ok ok', saveTimer_fires ok' (saveTimer_fires ok st1)
             = saveTimer_fires ok st1) ∧
  (∀ ok ok', saveTimer_fires ok' (persistNow ok st1) = persistNow ok st1).
Proof.
  intros Hne Hcs Hkey st1.
  destruct (burst_frame cs st Hcs) as (Hs & Hk & Ht). specialize (Ht Hne).
  fold st1 in Hs, Hk, Ht. rewrite Hkey in Hk.
  split; [done|]. split; [|split].
  - unfold saveTimer_fires. rewrite Ht. simpl. rewrite Hk.
    unfold save_to. simpl. by rewrite Hs.
  - intros ok ok'. unfold saveTimer_fires at 1.
    by destruct (saveTimer_fires_frame ok st1) as (_ & _ & _ & ->).
  - intros ok ok'. unfold saveTimer_fires, persistNow. rewrite Hk.
    by destruct (save_to_frame key ok (clearSaveTimer st1)) as (_ & _ & _ & ->).
Qed.


Lemma find_filter_ne (id id' : string) (cs : list Conversation) :
  id' ≠ id →
  List.find (λ c, bool_decide (conv_id c = id'))
    (filter (λ c, conv_id c ≠ id) cs)
  = List.find (λ c, bool_decide (conv_id c = id')) cs.
Proof.
  intros Hne. induction cs as [|c cs IH]; [done|].
  rewrite filter_cons. case_decide as Hc; simpl.
  - by rewrite IH.
  - rewrite IH.
    rewrite bool_decide_eq_false_2; [done|congruence].
Qed.

(** X13. After [deleteConversation(id)], [getConversation(id)] finds
    nothing, every other id is found as in the list before, no
    conversation with another id is lost or reordered, and deleting again
    changes nothing in the list. *)
Theorem deleteConversation_spec (id : string) st :
  let st' := deleteConversation id st in
  getConversation id st' = None ∧
  (∀ id', id' ≠ id →
     getConversation id' st'
     = List.find (λ c, bool_decide (conv_id c = id')) (conversations st)) ∧
  (∀ c, c ∈ conversations st' ↔ c ∈ conversations st ∧ conv_id c ≠ id) ∧
  conversations st' `sublist_of` conversations st ∧
  conversations (deleteConversation id st') = conversations st'.
Proof.
  unfold deleteConversation, getConversation, deleteConversation_updater.
  simpl. split; [|split; [|split; [|split]]].
  - induction (conversations st) as [|c cs IH]; [done|].
    rewrite filter_cons. case_decide as Hc; [|done]. simpl.
    by rewrite bool_decide_eq_false_2.
  - intros id' Hne. by apply find_filter_ne.
  - intros c. rewrite list_elem_of_filter. tauto.
  - apply sublist_filter.
  - rewrite list_filter_filter. apply list_filter_iff. tauto.
Qed.


(** X15. A load that resolves after its key has stopped being the active
    one is saved under the key that is active then: its conversations
    replace the list, and the next write, by [persistNow] or by the timer
    of a later edit, puts them under the active key, while the entry of
    the load's own key stays as it was. *)
Theorem stale_load_saved_under_active_key (i : nat) (keyA keyB : string) st
    (csA : list Conversation) :
  pendingLoads st !! i = Some keyA →
  storageKey st = Some keyB →
  keyA ≠ keyB →
  loaded_conversations (inr (storage st !! keyA)) = Some csA →
  ∃ st1, load_resolves i true st = Some st1 ∧
         conversations st1 = csA ∧ storageKey st1 = Some keyB ∧
         storage (persistNow true st1) !! keyB
           = Some (JSON_stringify (conversations_to_js csA)) ∧
         storage (persistNow true st1) !! keyA = storage st !! keyA ∧
         ∀ c, schedules_save c = true →
              storage (saveTimer_fires true (call c st1)) !! keyB
              = Some (JSON_stringify
                        (conversations_to_js (conversations (call c st1)))).
Proof.
  intros Hi Hkey Hne HcsA.
  rewrite (load_resolves_applies i keyA st csA Hi HcsA).
  eexists. split; [done|]. split; [done|]. split; [done|].
  split; [|split].
  - unfold persistNow. simpl. rewrite Hkey. unfold save_to. simpl.
    by rewrite lookup_insert_eq.
  - unfold persistNow. simpl. rewrite Hkey. unfold save_to. simpl.
    by rewrite lookup_insert_ne.
  - intros c Hc.
    match goal with |- context [call c ?s] => set (st1 := s) end.
    destruct (schedules_save_call c st1 Hc) as (Ht & Hs & Hk).
    unfold saveTimer_fires. rewrite Ht. simpl. rewrite Hk.
    change (storageKey st1) with (storageKey st). rewrite Hkey.
    unfold save_to. simpl. rewrite lookup_insert_eq.
    destruct (call_ref_mirrors c st1) as [->|[ok ->]]; done.
Qed.

End StoreProperties.

(** ** More about [handleSend] *)

Section SendProperties.
Context `{Platform}.
Import JsString ChatScreen.

Implicit Types (f : Frame) (ending : StreamEnd).

Ltac hs_unfold :=
  unfold mbind, HS_bind, bind, mret, HS_ret, ret, throw, try_catch,
    try_finally, emit, in_world, get_fullContent, set_fullContent,
    get_assistantAdded, set_assistantAdded in *.

Lemma store_calls_app (l1 l2 : list Action) :
  store_calls (l1 ++ l2) = store_calls l1 ++ store_calls l2.
Proof. apply omap_app. Qed.

Lemma streaming_after_content (pre : list Action) (s : string) f :
  streaming pre f → streaming pre (after_content s f).
Proof.
  intros ((body & Hact & Hbody) & Hchain & Hlast & bubble & Hscreen & Hbubble).
  destruct (after_content_fields s f) as (Hfull & Hadded & Hobs & _).
  split; [|split; [|split]].
  - unfold after_content. destruct (assistantAdded f); simpl.
    + eexists. rewrite Hact, <-app_assoc. split; [done|].
      by rewrite store_calls_app, Hbody.
    + eexists. rewrite Hact, <-app_assoc. split; [done|].
      by rewrite store_calls_app, Hbody.
  - rewrite Hobs. intros i a b Ha Hb.
    destruct (decide (S i < length (observations (actions f)))%nat) as [Hlt|Hge].
    + rewrite lookup_app_l in Ha by lia. rewrite lookup_app_l in Hb by lia.
      by eapply Hchain.
    + assert (S i = length (observations (actions f))) as Hi.
      { apply lookup_lt_Some in Hb. rewrite length_app in Hb. simpl in Hb.
        lia. }
      rewrite lookup_app_l in Ha by lia.
      rewrite lookup_app_r in Hb by lia.
      rewrite Hi, Nat.sub_diag in Hb. simpl in Hb. simplify_eq.
      destruct (assistantAdded f).
      * rewrite last_lookup in Hlast. rewrite <-Hi in Hlast. simpl in Hlast.
        rewrite Ha in Hlast. simplify_eq. by eexists.
      * destruct Hlast as [_ Hnil]. by rewrite Hnil in Ha.
  - rewrite Hadded, Hobs, Hfull. apply last_snoc.
  - rewrite Hadded, Hfull. destruct (assistantAdded f) eqn:Hwas.
    + destruct Hbubble as (a & -> & Hrole & Hcontent).
      exists [with_content a (fullContent f +:+ s)]. split; [|by eexists].
      intros init. rewrite after_content_screen, Hwas, Hscreen.
      by rewrite replace_last_content_snoc.
    + subst bubble.
      exists [assistant_message (generateMessageId (env f)).1
                (fullContent f +:+ s) (date_now (generateMessageId (env f)).2).1].
      split; [|by eexists].
      intros init. rewrite after_content_screen, Hwas, Hscreen.
      by rewrite app_nil_r.
Qed.

Lemma streaming_emit_display (pre : list Action) (a : Action) f :
  store_calls [a] = [] → observations [a] = [] →
  (∀ l, screen_messages [a] l = l) →
  streaming pre f →
  streaming pre {| env := env f; fullContent := fullContent f;
                   assistantAdded := assistantAdded f;
                   actions := actions f ++ [a] |}.
Proof.
  intros Hs Ho Hm ((body & Hact & Hbody) & Hchain & Hlast & bubble & Hscreen
                   & Hbubble).
  split; [|split; [|split]]; simpl.
  - exists (body ++ [a]). rewrite Hact, <-app_assoc. split; [done|].
    by rewrite store_calls_app, Hbody, Hs.
  - by rewrite observations_app, Ho, app_nil_r.
  - by rewrite observations_app, Ho, app_nil_r.
  - exists bubble. split; [|done]. intros init.
    by rewrite screen_messages_app, Hm, Hscreen.
Qed.

(** The outer [try] block on any response: it either fails, having made
    no call of the store, or ends, having handed to the store nothing
    when no content was accumulated and otherwise one assistant message
    with the accumulated content, followed by the title for a
    conversation that was empty. *)
Lemma request_and_read_outcome (id text : string) (cur new : list Message)
    (response : FetchResult) (pre : list Action) f (r : Exn + unit) f1 :
  request_and_read id text cur new response f = (r, f1) →
  streaming pre f →
  ∃ g, streaming pre g ∧
       (∃ rest, actions g
                = actions f ++ Fetch (map (λ m, (role m, content m)) new)
                               :: rest) ∧
       assistantAdded f1 = assistantAdded g ∧
       fullContent f1 = fullContent g ∧
       ((∃ e, r = inl e) ∧ f1 = g
        ∨ r = inr tt ∧ fullContent g = "" ∧ f1 = g
        ∨ r = inr tt ∧ fullContent g ≠ "" ∧
          ∃ m, role m = Assistant ∧ content m = fullContent g ∧
               actions f1
               = actions g ++ [CallAddMessage id m]
                 ++ (if decide (length cur = 0)%nat
                     then [CallUpdateConversationTitle id (title_of text)]
                     else [])).
Proof.
  intros Hrun Hf.
  pose proof (streaming_emit_display pre
                (Fetch (map (λ m, (role m, content m)) new)) f
                eq_refl eq_refl (λ _, eq_refl) Hf) as Hf0.
  revert Hrun. unfold request_and_read. hs_unfold.
  set (f0 := {| env := env f; fullContent := fullContent f;
                assistantAdded := assistantAdded f;
                actions := actions f
                  ++ [Fetch (map (λ m, (role m, content m)) new)] |}) in *.
  set (sent := λ g : Frame,
         ∃ rest, actions g
                 = actions f ++ Fetch (map (λ m, (role m, content m)) new)
                                :: rest).
  assert (sent f0) as Hs0 by (by exists []).
  assert (∀ s g, sent g → sent (after_content s g)) as Hsent.
  { intros s g [rest Hg]. unfold sent, after_content.
    destruct (assistantAdded g); simpl; rewrite Hg;
      rewrite <-app_assoc; simpl; by eexists. }
  destruct response as [|ok body]; simpl.
  { intros Heq. exists f0. split; [done|]. split; [done|].
    injection Heq as <- <-. eauto 10. }
  destruct ok; simpl.
  2:{ intros Heq. exists f0. split; [done|]. split; [done|].
      injection Heq as <- <-. eauto 10. }
  destruct body as [[chunks ending]|]; simpl.
  2:{ intros Heq. exists f0. split; [done|]. split; [done|].
      injection Heq as <- <-. eauto 10. }
  destruct (read_loop "" chunks ending f0) as [[e'|[]] g] eqn:Hloop.
  - intros Heq. injection Heq as <- <-. exists g.
    split; [|split; [|eauto 10]].
    + eapply (read_loop_preserves (streaming pre)); [|done|done].
      intros s h. apply streaming_after_content.
    + by eapply (read_loop_preserves sent).
  - assert (streaming pre g) as Hg.
    { eapply (read_loop_preserves (streaming pre)); [|done|done].
      intros s h. apply streaming_after_content. }
    assert (sent g) as Hsg by (by eapply (read_loop_preserves sent)).
    intros Hrun. exists g. split; [done|]. split; [done|]. revert Hrun.
    case_decide as Hfull.
    + intros ?; simplify_eq. eauto 10.
    + simpl. case_decide; simpl; intros ?; simplify_eq; simpl.
      * split; [done|]. split; [done|]. right. right.
        split; [done|]. split; [done|]. eexists (assistant_message _ _ _).
        split; [done|]. split; [done|]. by rewrite <-app_assoc.
      * split; [done|]. split; [done|]. right. right.
        split; [done|]. split; [done|]. eexists (assistant_message _ _ _).
        by split.
Qed.

Lemma begin_send_actions (id text : string) (messages : list Message)
    (w : World) :
  ∃ u fs,
    begin_send id text messages (entry w) = (inr (messages ++ [u]), fs) ∧
    role u = User ∧ content u = text ∧ imageBase64 u = None ∧
    actions fs = [Haptic; SetInputText "";
                  SetMessages (ReplaceAll (messages ++ [u]));
                  CallAddMessage id u; SetIsStreaming true;
                  SetShowTyping true] ∧
    streaming (actions fs) fs.
Proof.
  unfold begin_send. hs_unfold. simpl. eexists _, _.
  repeat (split; [reflexivity|]).
  split; [|split; [done|split; [done|]]].
  - exists []. by rewrite app_nil_r.
  - exists []. split; [|done]. intros init. by rewrite app_nil_r.
Qed.

Lemma on_failure_run (id : string) f :
  let m := assistant_message (generateMessageId (env f)).1 fallback_text
             (date_now (generateMessageId (env f)).2).1 in
  on_failure id f
  = (inr tt,
     {| env := (date_now (generateMessageId (env f)).2).2;
        fullContent := fullContent f; assistantAdded := assistantAdded f;
        actions := actions f
                   ++ [SetShowTyping false]
                   ++ (if assistantAdded f then []
                       else [SetMessages (Append m)])
                   ++ [CallAddMessage id m] |}).
Proof.
  unfold on_failure. hs_unfold. simpl.
  destruct (assistantAdded f); simpl; by rewrite <-!app_assoc.
Qed.

Lemma finish_send_run f :
  finish_send f
  = (inr tt,
     {| env := env f; fullContent := fullContent f;
        assistantAdded := assistantAdded f;
        actions := actions f ++ [SetIsStreaming false; SetShowTyping false] |}).
Proof. unfold finish_send. hs_unfold. simpl. by rewrite <-app_assoc. Qed.

(** The whole of [handleSend] on any response, in terms of the frame [g]
    in which the outer [try] block ends or fails. *)
Lemma handleSend_run (id inputText : string) (messages : list Message)
    (response : FetchResult) (w : World) :
  trim inputText ≠ "" →
  ∃ u pre g tail f,
    handleSend id inputText messages false response (entry w) = (inr tt, f) ∧
    role u = User ∧ content u = trim inputText ∧
    pre = [Haptic; SetInputText "";
           SetMessages (ReplaceAll (messages ++ [u]));
           CallAddMessage id u; SetIsStreaming true; SetShowTyping true] ∧
    streaming pre g ∧
    (∃ rest, actions g
             = pre ++ Fetch (map (λ m, (role m, content m)) (messages ++ [u]))
                      :: rest) ∧
    actions f = actions g ++ tail ++ [SetIsStreaming false; SetShowTyping false] ∧
    (tail = [] ∧ fullContent g = ""
     ∨ (∃ m, role m = Assistant ∧ content m = fullContent g ∧
             fullContent g ≠ "" ∧
             tail = [CallAddMessage id m]
                    ++ (if decide (length messages = 0)%nat
                        then [CallUpdateConversationTitle id
                                (title_of (trim inputText))]
                        else []))
     ∨ (∃ m, role m = Assistant ∧ content m = fallback_text ∧
             tail = [SetShowTyping false]
                    ++ (if assistantAdded g then []
                        else [SetMessages (Append m)])
                    ++ [CallAddMessage id m])).
Proof.
  intros Htext.
  destruct (begin_send_actions id (trim inputText) messages w)
    as (u & fs & Hbegin & Hrole & Hcontent & _ & Hpre & Hfs).
  destruct (request_and_read id (trim inputText) messages (messages ++ [u])
              response fs) as [r f1] eqn:Hbody.
  destruct (request_and_read_outcome _ _ _ _ _ _ _ _ _ Hbody Hfs)
    as (g & Hg & Hsent & Hadded & Hfull & Hcases).
  rewrite Hpre in Hg.
  exists u, (actions fs), g.
  unfold handleSend. rewrite decide_False by done.
  unfold mbind, HS_bind, bind. rewrite Hbegin.
  unfold try_finally, try_catch. rewrite Hbody.
  destruct Hcases as [([e ->] & ->)|[(-> & Hempty & ->)|(-> & Hne & m & Hm1 & Hm2 & Hact)]].
  - rewrite on_failure_run, finish_send_run. cbv zeta.
    set (m := assistant_message (generateMessageId (env g)).1 fallback_text
                (date_now (generateMessageId (env g)).2).1).
    exists ([SetShowTyping false]
            ++ (if assistantAdded g then [] else [SetMessages (Append m)])
            ++ [CallAddMessage id m]).
    eexists. split; [reflexivity|].
    split; [exact Hrole|]. split; [exact Hcontent|]. split; [exact Hpre|].
    split; [by rewrite Hpre|]. split; [exact Hsent|]. split.
    + cbn [actions]. by rewrite <-!app_assoc.
    + right. right. exists m. split; [reflexivity|]. split; reflexivity.
  - rewrite finish_send_run.
    exists []. eexists. split; [reflexivity|].
    split; [exact Hrole|]. split; [exact Hcontent|]. split; [exact Hpre|].
    split; [by rewrite Hpre|]. split; [exact Hsent|]. split; [reflexivity|].
    left. split; [reflexivity|exact Hempty].
  - rewrite finish_send_run.
    exists ([CallAddMessage id m]
            ++ (if decide (length messages = 0)%nat
                then [CallUpdateConversationTitle id (title_of (trim inputText))]
                else [])).
    eexists. split; [reflexivity|].
    split; [exact Hrole|]. split; [exact Hcontent|]. split; [exact Hpre|].
    split; [by rewrite Hpre|]. split; [exact Hsent|]. split.
    + cbn [actions]. rewrite Hact. by rewrite <-!app_assoc.
    + right. left. exists m. split; [exact Hm1|]. split; [exact Hm2|].
      split; [exact Hne|reflexivity].
Qed.

(** X16. [handleSend] always settles: whatever the response is (the
    fetch rejected, a failure status, no body, a stream of any chunks that
    ends or breaks), the call returns without an exception, and its last
    two actions switch the streaming flag and the typing indicator off.
    With a blank input or while a stream is running it does nothing at
    all; otherwise it starts by clearing the input box, showing the
    user's message after the earlier ones and handing it to the store,
    and then requests an answer with the roles and contents of all the
    messages displayed, the new one included. *)
Theorem handleSend_always_settles (id inputText : string)
    (messages : list Message) (isStreaming : bool) (response : FetchResult)
    (w : World) :
  ∃ f,
    handleSend id inputText messages isStreaming response (entry w)
      = (inr tt, f) ∧
    (if decide (trim inputText = "" ∨ isStreaming = true) then f = entry w
     else ∃ u body,
       role u = User ∧ content u = trim inputText ∧
       actions f
       = [Haptic; SetInputText "";
          SetMessages (ReplaceAll (messages ++ [u]));
          CallAddMessage id u; SetIsStreaming true; SetShowTyping true;
          Fetch (map (λ m, (role m, content m)) (messages ++ [u]))]
         ++ body ++ [SetIsStreaming false; SetShowTyping false]).
Proof.
  case_decide as Hguard.
  - exists (entry w). split; [|done]. unfold handleSend.
    case_decide; [done|]. destruct isStreaming; [done|]. by destruct Hguard.
  - assert (trim inputText ≠ "") as Htext by tauto.
    assert (isStreaming = false) as -> by (destruct isStreaming; tauto).
    destruct (handleSend_run id inputText messages response w Htext)
      as (u & pre & g & tail & f & Hrun & Hrole & Hcontent & -> & _
          & (rest & Hsent) & Hact & _).
    exists f. split; [done|]. exists u, (rest ++ tail).
    split; [done|]. split; [done|].
    rewrite Hact, Hsent, <-!app_assoc. done.
Qed.



(** *** Lines that the loop passes over *)

Lemma process_line_passed_over (l : string) f :
  passed_over l = true → process_line l f = (inr tt, f).
Proof.
  unfold passed_over, process_line. intros Hl.
  destruct (startsWith "data: " l); simpl in *; [|done].
  apply bool_decide_eq_true_1 in Hl. by rewrite decide_True.
Qed.

Lemma for_each_passed_over (lines : list string) f :
  for_each process_line lines f
  = for_each process_line (filter (λ l, passed_over l = false) lines) f.
Proof.
  revert f. induction lines as [|l lines IH]; intros f; [done|].
  rewrite filter_cons. destruct (passed_over l) eqn:Hl.
  - rewrite decide_False by done.
    rewrite (for_each_cons_ok _ _ _ _ f) by (by apply process_line_passed_over).
    apply IH.
  - rewrite decide_True by done. simpl. hs_unfold.
    destruct (process_line l f) as [[e|[]] f1]; [done|]. apply IH.
Qed.

(** X20. Lines that are not data lines, and the line [data: [DONE]], are
    transparent: the result of the line loop, and so of the whole stream
    loop, is that of the remaining lines alone, in their order. In
    particular [data: [DONE]] does not end the stream: the lines that
    follow it are processed like the others. *)
Theorem passed_over_lines_are_transparent (chunks : list string) ending f :
  read_loop "" chunks ending f
  = (for_each process_line
       (filter (λ l, passed_over l = false) (lines_of (concat chunks)));;
     end_of_stream ending) f ∧
  (∀ before after,
     lines_of (concat chunks) = before ++ "data: [DONE]" :: after →
     read_loop "" chunks ending f
     = (for_each process_line (before ++ after);; end_of_stream ending) f) ∧
  (∀ l, passed_over l = true ↔
        startsWith "data: " l = false ∨ l = "data: [DONE]").
Proof.
  assert (∀ lines,
            (for_each process_line lines;; end_of_stream ending) f
            = (for_each process_line
                 (filter (λ l, passed_over l = false) lines);;
               end_of_stream ending) f) as Hfilter.
  { intros lines. hs_unfold. by rewrite for_each_passed_over. }
  split; [|split].
  - rewrite read_loop_lines by done. apply Hfilter.
  - intros before after Hlines. rewrite read_loop_lines by done. simpl.
    rewrite Hlines, Hfilter, (Hfilter (before ++ after)).
    rewrite !filter_app, filter_cons. by rewrite decide_False by done.
  - intros l. unfold passed_over. split.
    + intros Hl. destruct (startsWith "data: " l) eqn:Hstart; [|by left].
      right. simpl in Hl. apply bool_decide_eq_true_1 in Hl.
      do 6 (destruct l as [|? l]; [done|]). simpl in Hstart, Hl.
      repeat (case_decide; [|done]). by subst.
    + intros [->| ->]; [done|]. done.
Qed.

End SendProperties.

(** ** The image screen *)

Section ImageProperties.
Context `{Platform}.
Import ImageScreen.

(** X19. [handleGenerate] ends every attempt with [isGenerating] off and
    with either an image or an error text, never both and never neither:
    an image is set exactly when the response has a success status and a
    JSON body whose [b64_json] member is truthy, and then the error text
    is empty; in every other case (the fetch rejected, a failure status
    with or without a readable body, a body that is not JSON or is
    [null], no image data) the image is cleared and the error text is not
    empty, whatever message the failure carries. With a blank prompt or
    while generating, nothing changes. *)
Theorem handleGenerate_outcome (platform_message : Exn → string)
    (reply : FetchResult) (s : Screen) :
  let s' := handleGenerate platform_message reply s in
  (JsString.trim (prompt s) = "" ∨ isGenerating s = true → s' = s) ∧
  (JsString.trim (prompt s) ≠ "" → isGenerating s = false →
   isGenerating s' = false ∧ prompt s' = prompt s ∧
   (is_Some (imageData s')
    ↔ ∃ data v, reply = Response true (inr data) ∧
                get_prop data "b64_json" = inr (Some v) ∧
                truthy (Some v) = true ∧ imageData s' = Some v) ∧
   (is_Some (imageData s') ↔ error s' = "") ∧
   (imageData s' = None ↔ error s' ≠ "")).
Proof.
  intros s'. split.
  - intros Hguard. unfold s', handleGenerate.
    case_decide; [done|]. destruct (isGenerating s); [done|].
    by destruct Hguard.
  - intros Htext Hidle. unfold s', handleGenerate.
    rewrite decide_False by done. rewrite Hidle.
    destruct (request reply) as [e|image] eqn:Hreq; simpl.
    + split; [done|]. split; [done|].
      assert ((if decide (message_of platform_message e = "")
               then "Failed to generate image. Please try again."
               else message_of platform_message e) ≠ "") as Herr.
      { by case_decide. }
      split; [|split].
      * split; [by intros [? ?]|]. by intros (? & ? & _ & _ & _ & ?).
      * split; [by intros [? ?]|]. by intros ?.
      * done.
    + split; [done|]. split; [done|]. split; [|split].
      * split; [|by eauto]. intros _. unfold request in Hreq.
        destruct reply as [|ok json]; [done|]. destruct ok; simpl in Hreq.
        2:{ by destruct (get_prop _ "error"). }
        destruct json as [e|data]; [done|].
        destruct (get_prop data "b64_json") as [e|[v|]] eqn:Hprop; [done| |done].
        destruct (truthy (Some v)) eqn:Htruthy; [|done].
        injection Hreq as <-. by exists data, v.
      * split; [done|by eauto].
      * split; [done|]. by intros ?.
Qed.

End ImageProperties.

(** ** The properties at concrete inputs, on the reference platform *)

Section Concrete.
Import ChatScreen Examples.

#[local] Existing Instance Reference.ticking.

(** three calls in the same millisecond that draw the same random digits *)
Lemma generateMessageId_unique_witness :
  (Z.of_nat (length [(0, 0); (0, 0); (0, 0)]%nat) ≤ 2 ^ 53)%Z ∧
  NoDup (@generated_ids Reference.frozen [(0, 0); (0, 0); (0, 0)]%nat 0).
Proof.
  split; [by vm_compute|]. apply generateMessageId_unique. by vm_compute.
Defined.

(** the example stream of the specification: the second observation and
    the persisted message are the concatenation of the two deltas *)
Lemma cumulative_content_counterexample :
  observations (hi_log hi_chunks) = ["Hi"; "HiHi there"] ∧
  observations (hi_log hi_chunks) ≠ ["Hi"; "Hi there"] ∧
  map content (persisted_assistant (hi_log hi_chunks)) = ["HiHi there"] ∧
  map content (persisted_assistant (hi_log hi_chunks)) ≠ ["Hi there"].
Proof. vm_compute. repeat split; discriminate. Qed.

Lemma handleSend_accumulates_deltas_witness :
  JsString.trim "hello" ≠ "" ∧
  JSON_parse (content_frame "Hi") = Some (JObj [("content", JStr "Hi")]) ∧
  JSON_parse (content_frame "Hi there")
    = Some (JObj [("content", JStr "Hi there")]) ∧
  JsString.concat hi_chunks_midline
    = line ("data: " +:+ content_frame "Hi")
      +:+ line ("data: " +:+ content_frame "Hi there")
      +:+ line "data: [DONE]" ∧
  observations (hi_log hi_chunks_midline) = ["Hi"; "HiHi there"] ∧
  map content (persisted_assistant (hi_log hi_chunks_midline))
    = ["HiHi there"].
Proof.
  assert (JsString.trim "hello" ≠ "") as H1 by (by vm_compute).
  assert (JSON_parse (content_frame "Hi")
          = Some (JObj [("content", JStr "Hi")])) as H2 by (by vm_compute).
  assert (JSON_parse (content_frame "Hi there")
          = Some (JObj [("content", JStr "Hi there")])) as H3
    by (by vm_compute).
  assert (JsString.concat hi_chunks_midline
          = line ("data: " +:+ content_frame "Hi")
            +:+ line ("data: " +:+ content_frame "Hi there")
            +:+ line "data: [DONE]") as H4 by (by vm_compute).
  destruct (handleSend_accumulates_deltas "c1" "hello" [] hi_chunks_midline
              w0 H1 H2 H3 H4) as (Ho & Hp & _).
  repeat (split; [assumption|]). exact Hp.
Defined.



(** the load for A resolves after the load for B: the provider ends with
    B's key active and A's conversation in memory, while the store holds
    B's conversation under the active key *)
Lemma stale_load_retained_counterexample :
  let final :=
    run [StorageKeyChanges (Some keyA); StorageKeyChanges (Some keyB);
         LoadResolves 1 true; LoadResolves 0 true] (mounted two_users w0) in
  storageKey <$> final = Some (Some keyB) ∧
  (λ st, map conv_id (conversations st)) <$> final = Some ["a1"] ∧
  (λ st, map conv_id (conversationsRef st)) <$> final = Some ["a1"] ∧
  (λ st, map conv_id <$> loaded_conversations (inr (storage st !! keyB)))
    <$> final = Some (Some ["b1"]).
Proof. by vm_compute. Qed.

Lemma identity_switch_last_load_wins_witness :
  pendingLoads (mounted two_users w0) = [] ∧
  storageKey (mounted two_users w0) ≠ Some keyA ∧
  keyA ≠ keyB ∧
  loaded_conversations (inr (storage (mounted two_users w0) !! keyA))
    = Some [convA] ∧
  loaded_conversations (inr (storage (mounted two_users w0) !! keyB))
    = Some [convB] ∧
  (∃ st', run [StorageKeyChanges (Some keyA); StorageKeyChanges (Some keyB);
               LoadResolves 0 true; LoadResolves 0 true] (mounted two_users w0)
            = Some st' ∧
          storageKey st' = Some keyB ∧ conversations st' = [convB]) ∧
  (∃ st', run [StorageKeyChanges (Some keyA); StorageKeyChanges (Some keyB);
               LoadResolves 1 true; LoadResolves 0 true] (mounted two_users w0)
            = Some st' ∧
          storageKey st' = Some keyB ∧ conversations st' = [convA]).
Proof.
  assert (pendingLoads (mounted two_users w0) = []) as H1 by reflexivity.
  assert (storageKey (mounted two_users w0) ≠ Some keyA) as H2
    by (by vm_compute).
  assert (keyA ≠ keyB) as H3 by (by vm_compute).
  assert (loaded_conversations (inr (storage (mounted two_users w0) !! keyA))
          = Some [convA]) as H4 by reflexivity.
  assert (loaded_conversations (inr (storage (mounted two_users w0) !! keyB))
          = Some [convB]) as H5 by reflexivity.
  destruct (identity_switch_last_load_wins (mounted two_users w0) keyA keyB
              [convA] [convB] H1 H2 H3 H4 H5)
    as ((sA & HrA & HkA & _ & HcA & _) & (sB & HrB & HkB & _ & HcB & _)).
  repeat (split; [assumption|]).
  split; [exists sA|exists sB]; by repeat split.
Defined.


Lemma malformed_skipped_error_aborts_witness :
  "{not json" ≠ "[DONE]" ∧
  lines_of (JsString.concat noisy_chunks)
    = [] ++ ("data: " +:+ "{not json") :: ["data: " +:+ content_frame "ok"] ∧
  for_each process_line [] (entry w0) = (inr tt, entry w0) ∧
  JSON_parse "{not json" = None ∧
  read_loop "" noisy_chunks Done (entry w0)
    = (inr tt, after_content "ok" (entry w0)).
Proof.
  assert ("{not json" ≠ "[DONE]") as H1 by done.
  assert (lines_of (JsString.concat noisy_chunks)
          = [] ++ ("data: " +:+ "{not json")
               :: ["data: " +:+ content_frame "ok"]) as H2 by (by vm_compute).
  assert (for_each process_line [] (entry w0) = (inr tt, entry w0)) as H3
    by reflexivity.
  assert (JSON_parse "{not json" = None) as H4 by (by vm_compute).
  destruct (malformed_skipped_error_aborts "{not json" []
              ["data: " +:+ content_frame "ok"] noisy_chunks Done (entry w0)
              (entry w0) H1 H2 H3) as (Hskip & _).
  destruct (Hskip H4) as (_ & _ & Hgood).
  repeat (split; [assumption|]).
  apply (Hgood (content_frame "ok") "ok"); [reflexivity|done| |done].
  by vm_compute.
Defined.


Lemma signup_duplicate_rejected_witness :
  Auth.normalize "Alice" = Auth.normalize " ALICE " ∧
  Auth.getUsers true no_accounts = Some ∅ ∧
  Auth.signup "Alice" "pass1" true true true no_accounts
    = Some (inr Auth.succeeded, alice_signed_up) ∧
  JSON_parse "" = None ∧
  ∃ r, Auth.signup " ALICE " "other" true true true alice_signed_up
         = Some (inr r, alice_signed_up) ∧
       Auth.success r = false.
Proof.
  assert (Auth.normalize "Alice" = Auth.normalize " ALICE ") as H1
    by (by vm_compute).
  assert (Auth.getUsers true no_accounts = Some ∅) as H2 by reflexivity.
  assert (Auth.signup "Alice" "pass1" true true true no_accounts
          = Some (inr Auth.succeeded, alice_signed_up)) as H3 by reflexivity.
  assert (JSON_parse "" = None) as H4 by (by vm_compute).
  pose proof (signup_duplicate_rejected "Alice" " ALICE " "pass1" "other"
                no_accounts alice_signed_up true true true true true ∅
                H1 H2 H3) as Hthm.
  cbv zeta in Hthm. specialize (Hthm H4).
  destruct Hthm as (r & Hr & Hfail & _); [by vm_compute|].
  repeat (split; [assumption|]).
  exists r. split; [exact Hr|exact Hfail].
Defined.

Lemma auth_failure_changes_nothing_witness :
  Auth.success (Auth.failure "Incorrect password") = false ∧
  Auth.login "alice" "wrong" true true alice_signed_up
    = Some (inr (Auth.failure "Incorrect password"), alice_signed_up) ∧
  ∀ st', Auth.login "alice" "wrong" true true alice_signed_up
           = Some (inr (Auth.failure "Incorrect password"), st') →
         st' = alice_signed_up.
Proof.
  assert (Auth.success (Auth.failure "Incorrect password") = false) as H1
    by reflexivity.
  split; [exact H1|]. split; [reflexivity|]. intros st'.
  exact (proj1 (auth_failure_changes_nothing "alice" "wrong" alice_signed_up
                  st' (Auth.failure "Incorrect password") true true true H1)).
Defined.

Lemma login_succeeds_iff_witness :
  Auth.getUsers true alice_signed_up = Some alice_directory ∧
  Auth.normalize "  alice " ≠ "" ∧ "pass1" ≠ "" ∧
  ∃ d, alice_directory !! Auth.normalize "  alice " = Some d ∧
       Auth.password d = "pass1".
Proof.
  assert (Auth.getUsers true alice_signed_up = Some alice_directory) as H1
    by reflexivity.
  split; [exact H1|].
  apply (proj1 (proj1 (login_succeeds_iff "  alice " "pass1" alice_signed_up
                         alice_directory H1))).
  exists alice_logged_in. reflexivity.
Defined.

Lemma prototype_names_are_taken_witness :
  Auth.getUsers true no_accounts = Some ∅ ∧
  Auth.signup "Constructor" "pass1" true true true no_accounts
    = Some (inr (Auth.failure "Username already exists"), no_accounts) ∧
  Auth.login "Constructor" "pass1" true true no_accounts
    = Some (inr (Auth.failure "Incorrect password"), no_accounts).
Proof.
  assert (Auth.getUsers true no_accounts = Some ∅) as H1 by reflexivity.
  assert (Auth.normalize "Constructor" = "constructor"
          ∨ Auth.normalize "Constructor" = "__proto__") as H2
    by (left; by vm_compute).
  assert ((∅ : gmap string Auth.UserData) !! Auth.normalize "Constructor"
          = None) as H3 by apply lookup_empty.
  assert (4 ≤ String.length "pass1")%nat as H4 by (simpl; lia).
  split; [exact H1|].
  exact (prototype_names_are_taken "Constructor" "pass1" no_accounts
           true true true ∅ H1 H2 H3 H4).
Defined.

Lemma session_round_trip_witness :
  Auth.login "  alice " "pass1" true true alice_signed_up
    = Some (inr Auth.succeeded, alice_logged_in) ∧
  JSON_parse "" = None ∧
  is_Some (Auth.user alice_logged_in) ∧
  Auth.user <$> Auth.loadCurrentUser true
                  (Auth.mounted (Auth.storage alice_logged_in) w0)
    = Some (Auth.user alice_logged_in).
Proof.
  assert (Auth.login "  alice " "pass1" true true alice_signed_up
          = Some (inr Auth.succeeded, alice_logged_in)) as H1 by reflexivity.
  assert (JSON_parse "" = None) as H2 by (by vm_compute).
  assert (∀ u, Auth.user alice_logged_in = Some u →
               JSON_parse (JSON_stringify (Auth.user_to_js u))
               = Some (Auth.user_to_js u)) as H3.
  { intros u Hu. vm_compute in Hu. injection Hu as <-. by vm_compute. }
  destruct (session_round_trip "  alice " "pass1" alice_signed_up
              alice_logged_in w0 H1 H2 H3) as (Hload & Hsome & _).
  split; [exact H1|]. split; [exact H2|]. split; [exact Hsome|].
  by rewrite Hload.
Defined.

Lemma signup_partial_failure_witness :
  Auth.getUsers true no_accounts = Some ∅ ∧
  Auth.users_get ∅ (Auth.normalize "Alice") = Auth.Missing ∧
  (3 ≤ String.length (Auth.normalize "Alice"))%nat ∧
  (4 ≤ String.length "pass1")%nat ∧
  JSON_parse "" = None ∧
  ∃ st', Auth.signup "Alice" "pass1" true true false no_accounts
           = Some (inl Rejected, st') ∧
         Auth.user st' = None ∧
         Auth.signup "Alice" "pass1" true true true st'
           = Some (inr (Auth.failure "Username already exists"), st').
Proof.
  assert (Auth.getUsers true no_accounts = Some ∅) as H1 by reflexivity.
  assert (Auth.users_get ∅ (Auth.normalize "Alice") = Auth.Missing) as H2
    by (by vm_compute).
  assert (3 ≤ String.length (Auth.normalize "Alice"))%nat as H3
    by (vm_compute; lia).
  assert (4 ≤ String.length "pass1")%nat as H4 by (simpl; lia).
  assert (JSON_parse "" = None) as H5 by (by vm_compute).
  pose proof (signup_partial_failure "Alice" "pass1" no_accounts true true
                true ∅ H1 H2 H3 H4) as Hthm.
  cbv zeta in Hthm. specialize (Hthm H5).
  destruct Hthm as (st' & Hs & Hu & _ & _ & Hagain); [by vm_compute|].
  repeat (split; [assumption|]).
  exists st'. split; [exact Hs|]. split; [exact Hu|exact Hagain].
Defined.

Lemma handleSubmit_outcome_witness :
  Auth.handleSubmit (Auth.login "" "secret" true true) no_accounts
    = Some ("Please enter both username and password", false, no_accounts) ∧
  ("Please enter both username and password" = ""
   ↔ ∃ r, Auth.login "" "secret" true true no_accounts
            = Some (inr r, no_accounts) ∧ Auth.success r = true).
Proof.
  assert (Auth.handleSubmit (Auth.login "" "secret" true true) no_accounts
          = Some ("Please enter both username and password", false,
                  no_accounts)) as H1 by reflexivity.
  split; [exact H1|].
  exact (proj2 (handleSubmit_outcome (Auth.login "" "secret" true true)
                  no_accounts no_accounts _ false H1)).
Defined.

Lemma ref_mirrors_state_witness :
  conversationsRef signed_in = conversations signed_in ∧
  run some_events signed_in = Some after_events ∧
  conversationsRef after_events = conversations after_events.
Proof.
  assert (conversationsRef signed_in = conversations signed_in) as H1
    by reflexivity.
  assert (run some_events signed_in = Some after_events) as H2
    by (unfold some_events, after_events;
        cbn [run step mbind option_bind call]; reflexivity).
  split; [exact H1|]. split; [exact H2|].
  exact (proj1 (ref_mirrors_state some_events signed_in after_events H1 H2)).
Defined.

Lemma writes_only_under_active_key_witness :
  run some_events signed_in = Some after_events ∧
  storageKey signed_in ≠ Some keyB ∧
  Forall (λ e, e ≠ StorageKeyChanges (Some keyB)) some_events ∧
  storage after_events !! keyB = storage signed_in !! keyB.
Proof.
  assert (run some_events signed_in = Some after_events) as H1
    by (unfold some_events, after_events;
        cbn [run step mbind option_bind call]; reflexivity).
  assert (storageKey signed_in ≠ Some keyB) as H2 by (by vm_compute).
  assert (Forall (λ e, e ≠ StorageKeyChanges (Some keyB)) some_events) as H3
    by (by repeat constructor).
  split; [exact H1|]. split; [exact H2|]. split; [exact H3|].
  exact (proj1 (writes_only_under_active_key some_events signed_in
                  after_events H1) keyB H2 H3).
Defined.


Lemma debounce_coalesces_burst_witness :
  some_edits ≠ [] ∧
  Forall (λ c, schedules_save c = true) some_edits ∧
  storageKey signed_in = Some keyA ∧
  storage (calls some_edits signed_in) = storage signed_in.
Proof.
  assert (some_edits ≠ []) as H1 by done.
  assert (Forall (λ c, schedules_save c = true) some_edits) as H2
    by (by repeat constructor).
  assert (storageKey signed_in = Some keyA) as H3 by reflexivity.
  split; [exact H1|]. split; [exact H2|]. split; [exact H3|].
  exact (proj1 (debounce_coalesces_burst some_edits signed_in keyA H1 H2 H3)).
Defined.


Lemma stale_load_saved_under_active_key_witness :
  pendingLoads switching !! 0%nat = Some keyA ∧
  storageKey switching = Some keyB ∧
  keyA ≠ keyB ∧
  loaded_conversations (inr (storage switching !! keyA)) = Some [convA] ∧
  ∃ st1, load_resolves 0 true switching = Some st1 ∧
         storage (persistNow true st1) !! keyB
         = Some (JSON_stringify (conversations_to_js [convA])).
Proof.
  assert (pendingLoads switching !! 0%nat = Some keyA) as H1 by reflexivity.
  assert (storageKey switching = Some keyB) as H2 by reflexivity.
  assert (keyA ≠ keyB) as H3 by (by vm_compute).
  assert (loaded_conversations (inr (storage switching !! keyA))
          = Some [convA]) as H4 by reflexivity.
  destruct (stale_load_saved_under_active_key 0 keyA keyB switching [convA]
              H1 H2 H3 H4) as (st1 & Hload & _ & _ & Hsaved & _).
  repeat (split; [assumption|]).
  exists st1. split; [exact Hload|exact Hsaved].
Defined.



End Concrete.
